(** * QOI encoder (encode.py): a shallow embedding and its properties

    The development follows [src/encode.py] from the point where the image has
    been opened (line 52 onwards): [width], [height] and [pixVals] are what
    [Image.open(path)] delivered.  Python values are modelled as far as the
    encoder can tell them apart: integers are [Z], a pixel is a tuple of
    integers, the two literals [[0,0,0]] of the source are lists.  Bytes are
    integers in [0, 256).  Exceptions and the writes to the output file are
    threaded through a small monad.  Of the file system only what lines 59-64
    look at is kept: what is called [output] in the current directory and
    what it holds; the progress meter is kept only for the division it
    performs. *)

From Stdlib Require Import ZArith List Lia Bool.
From stdpp Require Import base decidable option list gmap strings.

Local Open Scope Z_scope.

(** ** Python values and exceptions *)

(** A Python sequence of integers.  [list(im.getdata())] yields tuples (one
    per pixel, one integer per band); [[0, 0, 0]] in the source is a list. *)
Inductive pyseq : Type :=
| PyList (elems : list Z)
| PyTuple (elems : list Z).

Definition items (s : pyseq) : list Z :=
  match s with
  | PyList l => l
  | PyTuple l => l
  end.

#[global] Instance pyseq_eq_dec : EqDecision pyseq.
Proof. solve_decision. Defined.

(** Python's [==] on sequences: a tuple never equals a list, whatever they
    hold; two sequences of the same type are compared item by item. *)
Definition py_eq (a b : pyseq) : bool :=
  match a, b with
  | PyList x, PyList y => bool_decide (x = y)
  | PyTuple x, PyTuple y => bool_decide (x = y)
  | _, _ => false
  end.

(** The exceptions that lines 52-140 raise on such pixels.  A pixel that is
    no sequence (the integers of a single-band image, on which [rgb[0]] is a
    [TypeError]) is outside this model, and so is what the handler of lines
    145-148 does with the exception it catches. *)
Inductive exn : Type := OverflowError | IndexError | ZeroDivisionError.

#[global] Instance exn_eq_dec : EqDecision exn.
Proof. solve_decision. Defined.

(** The value of an expression, or the exception it raises. *)
Inductive result (A : Type) : Type :=
| Ok (a : A)
| Raise (e : exn).
Arguments Ok {A} a.
Arguments Raise {A} e.

#[global] Instance result_eq_dec `{EqDecision A} : EqDecision (result A).
Proof. solve_decision. Defined.

Definition rbind {A B} (r : result A) (k : A -> result B) : result B :=
  match r with
  | Ok a => k a
  | Raise e => Raise e
  end.

(** [s[i]] for a literal, non-negative [i]. *)
Definition subscript (s : pyseq) (i : nat) : result Z :=
  match items s !! i with
  | Some v => Ok v
  | None => Raise IndexError
  end.

(** [index[pos]] on the colour index (a list of sequences); [pos] is never
    negative here, see [index_hash]. *)
Definition slot_at (index : list pyseq) (pos : Z) : result pyseq :=
  match index !! Z.to_nat pos with
  | Some v => Ok v
  | None => Raise IndexError
  end.

(** Big-endian digits in base 256, most significant first. *)
Fixpoint be_bytes (length : nat) (n : Z) : list Z :=
  match length with
  | O => []
  | S k => (n / 256 ^ Z.of_nat k) mod 256 :: be_bytes k n
  end.

(** [n.to_bytes(length, byteorder='big', signed=False)]: raises
    [OverflowError] for a negative [n] and for one that does not fit. *)
Definition to_bytes (n : Z) (length : nat) : result (list Z) :=
  if (0 <=? n) && (n <? 256 ^ Z.of_nat length)
  then Ok (be_bytes length n)
  else Raise OverflowError.

(** ** The output file

    A computation that may append bytes to the open file [fo] and may raise:
    it maps the bytes written so far to the bytes written afterwards and to
    its value or exception.  What was written before an exception stays. *)
Definition io (A : Type) : Type := list Z -> list Z * result A.

Definition io_ret {A} (a : A) : io A := fun fo => (fo, Ok a).

Definition io_bind {A B} (m : io A) (k : A -> io B) : io B :=
  fun fo =>
    match m fo with
    | (fo', Ok a) => k a fo'
    | (fo', Raise e) => (fo', Raise e)
    end.

Definition io_raise {A} (e : exn) : io A := fun fo => (fo, Raise e).

(** An expression without effect on the file. *)
Definition eval {A} (r : result A) : io A := fun fo => (fo, r).

(** [fo.write(bs)] *)
Definition fo_write (bs : list Z) : io unit := fun fo => (fo ++ bs, Ok tt).

Notation "x <~ m ;; k" := (io_bind m (fun x => k))
  (at level 60, m at next level, right associativity).
Notation "m ;;; k" := (io_bind m (fun _ => k))
  (at level 60, right associativity).

(** ** encode.py *)

(** Line 25: [index_hash(rgb)]. Python's [%] with a positive modulus is
    [Z.modulo]. *)
Definition index_hash (rgb : pyseq) : result Z :=
  rbind (subscript rgb 0) (fun c0 =>
  rbind (subscript rgb 1) (fun c1 =>
  rbind (subscript rgb 2) (fun c2 =>
  Ok ((c0 * 3 + c1 * 5 + c2 * 7 + 255 * 11) mod 64)))).

(** The local variables of [encode] that live across loop iterations. *)
Record locals : Type := Locals {
  index : list pyseq;      (* colour index, 64 slots *)
  last : pyseq;            (* previous pixel *)
  run_counter : Z;         (* run-length repetition counter *)
  current : Z              (* pixel counter of the progress meter *)
}.

(** Lines 31, 74-76. *)
Definition init_locals : locals :=
  {| index := replicate 64 (PyList [0; 0; 0]);
     last := PyList [0; 0; 0];
     run_counter := 0;
     current := 0 |}.

(** [a[i] == b[i]] *)
Definition chan_eq (a b : pyseq) (i : nat) : result bool :=
  rbind (subscript a i) (fun x =>
  rbind (subscript b i) (fun y => Ok (x =? y))).

(** Python's short-circuit [and]. *)
Definition and_then (c1 c2 : result bool) : result bool :=
  rbind c1 (fun b => if b then c2 else Ok false).

(** Line 84: the run-continuation test. *)
Definition run_test (st : locals) (rgb : pyseq) : result bool :=
  and_then (chan_eq (last st) rgb 0)
 (and_then (chan_eq (last st) rgb 1)
 (and_then (chan_eq (last st) rgb 2)
           (Ok (run_counter st <? 62)))).

(** Lines 113-115: the range test of QOI_OP_DIFF. *)
Definition small_delta (dr dg db : Z) : bool :=
  (dr <? 2) && (-3 <? dr) && (dg <? 2) && (-3 <? dg) && (db <? 2) && (-3 <? db).

(** Line 119: [64 | dr + 2 << 4 | dg + 2 << 2 | db + 2]; in Python [+] binds
    tighter than [<<], which binds tighter than [|]. *)
Definition diff_byte (dr dg db : Z) : Z :=
  Z.lor (Z.lor (Z.lor 64 (Z.shiftl (dr + 2) 4)) (Z.shiftl (dg + 2) 2)) (db + 2).

(** Line 92: [192 | (run_counter - 1)]. *)
Definition run_byte (run_counter : Z) : Z := Z.lor 192 (run_counter - 1).

(** Lines 90-93: write the run length if a run is pending; the value is the
    new [run_counter]. *)
Definition flush_run (run_counter : Z) : io Z :=
  if 0 <? run_counter then
    bs <~ eval (to_bytes (run_byte run_counter) 1) ;;
    fo_write bs ;;;
    io_ret 0
  else io_ret run_counter.

(** Lines 80-137: one iteration of [for rgb in pixVals].  The progress meter
    only matters through the division in line 135, which raises when
    [width * height] is zero. *)
Definition loop_body (width height : Z) (st : locals) (rgb : pyseq) : io locals :=
  index_pos <~ eval (index_hash rgb) ;;
  continue_run <~ eval (run_test st rgb) ;;
  if continue_run : bool then
    io_ret {| index := index st; last := last st;
              run_counter := run_counter st + 1; current := current st + 1 |}
  else
    run_counter' <~ flush_run (run_counter st) ;;
    slot <~ eval (slot_at (index st) index_pos) ;;
    if negb (py_eq rgb slot) then
      let index' := <[Z.to_nat index_pos := rgb]> (index st) in
      r <~ eval (subscript rgb 0) ;;
      l0 <~ eval (subscript (last st) 0) ;;
      g <~ eval (subscript rgb 1) ;;
      l1 <~ eval (subscript (last st) 1) ;;
      b <~ eval (subscript rgb 2) ;;
      l2 <~ eval (subscript (last st) 2) ;;
      let dr := r - l0 in
      let dg := g - l1 in
      let db := b - l2 in
      if small_delta dr dg db then
        bs <~ eval (to_bytes (diff_byte dr dg db) 1) ;;
        fo_write bs ;;;
        io_ret {| index := index'; last := rgb;
                  run_counter := run_counter'; current := current st + 1 |}
      else
        tag <~ eval (to_bytes 254 1) ;; fo_write tag ;;;
        b0 <~ eval (rbind (subscript rgb 0) (fun c => to_bytes c 1)) ;; fo_write b0 ;;;
        b1 <~ eval (rbind (subscript rgb 1) (fun c => to_bytes c 1)) ;; fo_write b1 ;;;
        b2 <~ eval (rbind (subscript rgb 2) (fun c => to_bytes c 1)) ;; fo_write b2 ;;;
        (if width * height =? 0 then io_raise ZeroDivisionError else io_ret tt) ;;;
        io_ret {| index := index'; last := rgb;
                  run_counter := run_counter'; current := current st + 1 |}
    else
      bs <~ eval (to_bytes index_pos 1) ;;
      fo_write bs ;;;
      io_ret {| index := index st; last := rgb;
                run_counter := run_counter'; current := current st + 1 |}.

(** [for rgb in pixVals: ...] *)
Fixpoint for_each (body : locals -> pyseq -> io locals)
    (pixVals : list pyseq) (st : locals) : io locals :=
  match pixVals with
  | [] => io_ret st
  | rgb :: rest => st' <~ body st rgb ;; for_each body rest st'
  end.

(** Line 53: [b"qoif"]. *)
Definition magic : list Z := [113; 111; 105; 102].

(** Line 140. *)
Definition trailer : list Z := [0; 0; 0; 0; 0; 0; 0; 1].

(** Lines 68-140: everything done with the open file. *)
Definition write_file (width height : Z) (pixVals : list pyseq)
    (bwidth bheight channels colorspace : list Z) : io unit :=
  fo_write magic ;;;
  fo_write bwidth ;;;
  fo_write bheight ;;;
  fo_write channels ;;;
  fo_write colorspace ;;;
  _ <~ for_each (loop_body width height) pixVals init_locals ;;
  fo_write trailer.

(** What a call of [encode] leaves behind. *)
Inductive outcome : Type :=
| Raised (e : exn)
    (* raised in lines 54-57: the output file was never opened *)
| Wrote (file : list Z) (e : option exn).
    (* the bytes of the output file, and the exception that ended the
       [with] block early, if any; the handler of lines 145-148 writes
       nothing to the file *)

#[global] Instance outcome_eq_dec : EqDecision outcome.
Proof. solve_decision. Defined.

(** Lines 52-148 of [encode]. *)
Definition encode (width height : Z) (pixVals : list pyseq) : outcome :=
  match
    rbind (to_bytes width 4) (fun bwidth =>
    rbind (to_bytes height 4) (fun bheight =>
    rbind (to_bytes 3 1) (fun channels =>
    rbind (to_bytes 0 1) (fun colorspace =>
    Ok (bwidth, bheight, channels, colorspace)))))
  with
  | Raise e => Raised e
  | Ok (bwidth, bheight, channels, colorspace) =>
      match write_file width height pixVals bwidth bheight channels colorspace [] with
      | (file, Ok _) => Wrote file None
      | (file, Raise e) => Wrote file (Some e)
      end
  end.

(** ** The output directory

    What lines 59-64 ask of the file system: whether [./output] exists, to
    make it, and to open [./output/<stem>.qoi] for writing.  A state of the
    file system says what is called [output] in the current directory and,
    if that is a directory, what it holds. *)

Inductive node : Type :=
| RegularFile (writable : bool) (bytes : list Z)
| SubDirectory.

Inductive out_entry : Type :=
| Absent
    (* nothing is called output *)
| NotADirectory
    (* output is a regular file *)
| OutputDir (writable : bool) (entries : gmap string node).

Record fsys : Type := Fsys {
  cwd_writable : bool;     (* may entries be made in the current directory *)
  output : out_entry
}.

Inductive os_error : Type :=
| PermissionError | NotADirectoryError | IsADirectoryError
| FileNotFoundError | FileExistsError.

(** [os.path.exists("./output")] *)
Definition os_path_exists (fs : fsys) : bool :=
  match output fs with
  | Absent => false
  | _ => true
  end.

(** [os.mkdir("output")] *)
Definition os_mkdir (fs : fsys) : os_error + fsys :=
  match output fs with
  | Absent =>
      if cwd_writable fs
      then inr {| cwd_writable := cwd_writable fs; output := OutputDir true ∅ |}
      else inl PermissionError
  | _ => inl FileExistsError
  end.

(** [open("./output/" + name, "wb")]: the file is made if it is not there
    and emptied if it is. *)
Definition open_wb (fs : fsys) (name : string) : os_error + fsys :=
  match output fs with
  | Absent => inl FileNotFoundError
  | NotADirectory => inl NotADirectoryError
  | OutputDir w entries =>
      match entries !! name with
      | Some SubDirectory => inl IsADirectoryError
      | Some (RegularFile fw _) =>
          if fw
          then inr {| cwd_writable := cwd_writable fs;
                      output := OutputDir w (<[name := RegularFile fw []]> entries) |}
          else inl PermissionError
      | None =>
          if w
          then inr {| cwd_writable := cwd_writable fs;
                      output := OutputDir w (<[name := RegularFile true []]> entries) |}
          else inl PermissionError
      end
  end.

(** The bytes of the file [./output/name]. *)
Definition file_bytes (fs : fsys) (name : string) : option (list Z) :=
  match output fs with
  | OutputDir _ entries =>
      match entries !! name with
      | Some (RegularFile _ bytes) => Some bytes
      | _ => None
      end
  | _ => None
  end.

(** The open file [./output/name] with the bytes [bytes] in it. *)
Definition with_bytes (fs : fsys) (name : string) (bytes : list Z) : fsys :=
  match output fs with
  | OutputDir w entries =>
      match entries !! name with
      | Some (RegularFile fw _) =>
          {| cwd_writable := cwd_writable fs;
             output := OutputDir w (<[name := RegularFile fw bytes]> entries) |}
      | _ => fs
      end
  | _ => fs
  end.

(** How a call of [encode] ends, seen from the caller. *)
Inductive call_end : Type :=
| BeforeOpen (e : exn)
    (* lines 54-57 raised; nothing was touched *)
| MkdirFailed (e : os_error)
    (* line 61 raised *)
| OpenFailed (e : os_error)
    (* line 64 raised, into the handler of line 145 *)
| Closed (e : option exn).
    (* the file was opened and closed again; [e] ended the [with] block
       early, into the handler of line 145 *)

(** Lines 52-148 of [encode] on the file system [fs]; [stem] is
    [Path(path).stem].  The [with] block goes on from the bytes the file has
    when it has been opened. *)
Definition encode_in (fs : fsys) (stem : string) (width height : Z)
    (pixVals : list pyseq) : fsys * call_end :=
  match
    rbind (to_bytes width 4) (fun bwidth =>
    rbind (to_bytes height 4) (fun bheight =>
    rbind (to_bytes 3 1) (fun channels =>
    rbind (to_bytes 0 1) (fun colorspace =>
    Ok (bwidth, bheight, channels, colorspace)))))
  with
  | Raise e => (fs, BeforeOpen e)
  | Ok (bwidth, bheight, channels, colorspace) =>
      match (if os_path_exists fs then inr fs else os_mkdir fs) with
      | inl e => (fs, MkdirFailed e)
      | inr fs1 =>
          let name := String.append stem ".qoi" in
          match open_wb fs1 name with
          | inl e => (fs1, OpenFailed e)
          | inr fs2 =>
              match write_file width height pixVals
                      bwidth bheight channels colorspace
                      (default [] (file_bytes fs2 name)) with
              | (file, Ok _) => (with_bytes fs2 name file, Closed None)
              | (file, Raise e) => (with_bytes fs2 name file, Closed (Some e))
              end
          end
      end
  end.

(** ** Auxiliary notions used in the statements *)

(** An RGB pixel as [getdata] delivers it. *)
Definition px (r g b : Z) : pyseq := PyTuple [r; g; b].

(** A well-formed RGB pixel: a 3-tuple of 8-bit channels. *)
Definition rgb_pixel (p : pyseq) : Prop :=
  exists r g b, p = px r g b /\ 0 <= r < 256 /\ 0 <= g < 256 /\ 0 <= b < 256.

(** The value of [index_hash] on a 3-tuple. *)
Definition hash_of (r g b : Z) : Z := (r * 3 + g * 5 + b * 7 + 255 * 11) mod 64.

(** The bytes that lines 90-93 write for a pending run of [rc] pixels. *)
Definition flushed (rc : Z) : list Z :=
  if 0 <? rc then [run_byte rc] else [].

(** The bytes the pixel loop writes, from the state at line 76. *)
Definition opcodes (width height : Z) (pixVals : list pyseq) : list Z :=
  fst (for_each (loop_body width height) pixVals init_locals []).

(** The loop has consumed [seen] without an exception and stands in [st]. *)
Definition reaches (width height : Z) (seen : list pyseq) (st : locals) : Prop :=
  snd (for_each (loop_body width height) seen init_locals []) = Ok st.

(** The last pixel of [seen] whose hash is [k]. *)
Fixpoint most_recent (k : Z) (seen : list pyseq) : option pyseq :=
  match seen with
  | [] => None
  | p :: rest =>
      match most_recent k rest with
      | Some q => Some q
      | None => if bool_decide (index_hash p = Ok k) then Some p else None
      end
  end.

(** The bytes of lines 68-72. *)
Definition header (width height : Z) : list Z :=
  magic ++ be_bytes 4 width ++ be_bytes 4 height ++ [3] ++ [0].

(** The state after a pixel that was neither absorbed by a run nor found in
    the index. *)
Definition stored (st : locals) (r g b : Z) : locals :=
  {| index := <[Z.to_nat (hash_of r g b) := px r g b]> (index st);
     last := px r g b;
     run_counter := 0;
     current := current st + 1 |}.

(** Following the spec's words ("wrapped 8-bit arithmetic"): the difference
    of two channels modulo 256, read as a signed 8-bit number. *)
Definition wrapped_delta (p l : Z) : Z := (p - l + 128) mod 256 - 128.

(** What a computation appends and returns does not depend on what the file
    already holds. *)
Definition appends {A} (m : io A) : Prop :=
  forall fo, m fo = (fo ++ fst (m []), snd (m [])).

(** Slot content [o] against the most recent pixel [m] of its hash: the slot
    holds the channel values of that pixel, or the initial [[0, 0, 0]] when
    there is none. *)
Definition slot_ok (o m : option pyseq) : Prop :=
  match m with
  | Some p => items <$> o = Some (items p)
  | None => o = Some (PyList [0; 0; 0])
  end.

(** What holds of the loop state once the pixels [seen] have been consumed. *)
Record inv (seen : list pyseq) (st : locals) : Prop := {
  inv_len : length (index st) = 64%nat;
  inv_rc : 0 <= run_counter st <= 62;
  inv_last :
    (* either nothing but the opening run of black pixels has been seen ... *)
    (last st = PyList [0; 0; 0] /\
     index st = replicate 64 (PyList [0; 0; 0]) /\
     Forall (eq (px 0 0 0)) seen /\
     run_counter st = Z.of_nat (length seen))
    \/
    (* ... or [last] is the pixel seen last, and sits in its slot *)
    (exists r g b pre,
       last st = px r g b /\ seen = pre ++ [px r g b] /\
       index st !! Z.to_nat (hash_of r g b) = Some (px r g b));
  inv_table :
    forall k, 0 <= k < 64 ->
      slot_ok (index st !! Z.to_nat k) (most_recent k seen)
}.

(** ** Pixels with any number of bands *)

(** The red, green and blue channel of a pixel (black for a sequence that
    has fewer than three items). *)
Definition colour (p : pyseq) : Z * Z * Z :=
  match items p with
  | r :: g :: b :: _ => (r, g, b)
  | _ => (0, 0, 0)
  end.

(** A pixel with at least three bands whose first three are 8-bit values:
    what [getdata] yields for an RGB or an RGBA image. *)
Definition bands8 (p : pyseq) : Prop :=
  exists r g b tl, items p = r :: g :: b :: tl /\
                   0 <= r < 256 /\ 0 <= g < 256 /\ 0 <= b < 256.

(** The shape the local variables keep, whatever the pixels are. *)
Definition wf_locals (st : locals) : Prop :=
  length (index st) = 64%nat /\
  0 <= run_counter st <= 62 /\
  exists l0 l1 l2 ltl, items (last st) = l0 :: l1 :: l2 :: ltl.

(** Lines 124-137 for a pixel with channels [r], [g], [b], after the bytes
    [fo] and with [st'] as the state to go on with. *)
Definition literal_path (width height r g b : Z) (st' : locals) (fo : list Z)
    : list Z * result locals :=
  match to_bytes r 1 with
  | Raise e => (fo ++ [254], Raise e)
  | Ok b0 =>
      match to_bytes g 1 with
      | Raise e => (fo ++ [254] ++ b0, Raise e)
      | Ok b1 =>
          match to_bytes b 1 with
          | Raise e => (fo ++ [254] ++ b0 ++ b1, Raise e)
          | Ok b2 =>
              (fo ++ [254] ++ b0 ++ b1 ++ b2,
               if width * height =? 0 then Raise ZeroDivisionError else Ok st')
          end
      end
  end.

(** Why the loop body can raise [e] on the pixel [p]: the pixel has fewer
    than three bands (line 27), a channel written raw does not fit a byte
    (lines 127-129), or the progress meter divides by zero (line 135). *)
Definition failure_cause (width height : Z) (p : pyseq) (e : exn) : Prop :=
  (e = IndexError /\ (length (items p) < 3)%nat) \/
  (e = OverflowError /\ exists c, In c (take 3 (items p)) /\ ~ (0 <= c < 256)) \/
  (e = ZeroDivisionError /\ width * height = 0).

(** ** Reading the bytes back

    [encode.py] has no decoder (its docstring announces one).  The reader
    below is not part of the program: it follows the byte layout of the four
    opcodes as the loop writes them and serves to show that the bytes
    determine the colours. *)

(** What has been read: the colours so far, the previous colour, the 64
    colours seen at each hash, and the channels of a literal that is being
    read. *)
Record reader : Type := Reader {
  rd_out : list (Z * Z * Z);
  rd_last : Z * Z * Z;
  rd_table : list (Z * Z * Z);
  rd_lit : option (list Z)
}.

Definition rd_init : reader :=
  {| rd_out := []; rd_last := (0, 0, 0);
     rd_table := replicate 64 (0, 0, 0); rd_lit := None |}.

Definition hash_colour (c : Z * Z * Z) : Z :=
  let '(r, g, b) := c in hash_of r g b.

(** One more colour; [store] tells whether it goes into the table. *)
Definition rd_pixel (s : reader) (c : Z * Z * Z) (store : bool) : reader :=
  {| rd_out := rd_out s ++ [c];
     rd_last := c;
     rd_table := if store then <[Z.to_nat (hash_colour c) := c]> (rd_table s)
                 else rd_table s;
     rd_lit := None |}.

Definition read_byte (s : reader) (byte : Z) : reader :=
  match rd_lit s with
  | Some [r; g] => rd_pixel s (r, g, byte) true
  | Some l =>
      {| rd_out := rd_out s; rd_last := rd_last s; rd_table := rd_table s;
         rd_lit := Some (l ++ [byte]) |}
  | None =>
      if byte <? 64 then
        rd_pixel s (default (0, 0, 0) (rd_table s !! Z.to_nat byte)) false
      else if byte <? 128 then
        let '(l0, l1, l2) := rd_last s in
        rd_pixel s (l0 + ((byte / 16) mod 4 - 2),
                    l1 + ((byte / 4) mod 4 - 2),
                    l2 + (byte mod 4 - 2)) true
      else if (192 <=? byte) && (byte <? 254) then
        {| rd_out := rd_out s ++ replicate (Z.to_nat (byte - 191)) (rd_last s);
           rd_last := rd_last s; rd_table := rd_table s; rd_lit := None |}
      else if byte =? 254 then
        {| rd_out := rd_out s; rd_last := rd_last s; rd_table := rd_table s;
           rd_lit := Some [] |}
      else s
  end.

Definition read_back (bs : list Z) : reader := fold_left read_byte bs rd_init.

(** The colours of an image of [n] pixels from the bytes of the loop: what
    the bytes give, and the previous colour for the pixels that are left. *)
Definition restore (n : nat) (bs : list Z) : list (Z * Z * Z) :=
  let s := read_back bs in
  rd_out s ++ replicate (n - length (rd_out s)) (rd_last s).

(** The reader [s], having read the bytes of the pixels [seen], against the
    state [st] of the loop. *)
Definition agrees (seen : list pyseq) (st : locals) (s : reader) : Prop :=
  rd_lit s = None /\
  map colour seen
    = rd_out s ++ replicate (Z.to_nat (run_counter st)) (rd_last s) /\
  colour (last st) = rd_last s /\
  length (rd_table s) = 64%nat /\
  forall k q, index st !! k = Some q -> rd_table s !! k = Some (colour q).

(** A well-formed image: dimensions that fit 32 bits, width times height
    pixels, each with at least three 8-bit bands. *)
Definition well_formed (width height : Z) (pixVals : list pyseq) : Prop :=
  0 <= width < 2 ^ 32 /\ 0 <= height < 2 ^ 32 /\
  Z.of_nat (length pixVals) = width * height /\
  Forall bands8 pixVals.

(** ** One more band *)

(** The pixel [q] with one more band of value [a] (the alpha of an RGBA
    pixel, say); the list literals of the source stay as they are. *)
Definition with_alpha (a : Z) (q : pyseq) : pyseq :=
  match q with
  | PyTuple l => PyTuple (l ++ [a])
  | PyList l => PyList l
  end.

(** The local variables when every pixel seen had that band. *)
Definition lift (a : Z) (st : locals) : locals :=
  {| index := with_alpha a <$> index st;
     last := with_alpha a (last st);
     run_counter := run_counter st;
     current := current st |}.

Definition rmap {A B} (f : A -> B) (r : result A) : result B :=
  match r with
  | Ok x => Ok (f x)
  | Raise e => Raise e
  end.

(** * Properties *)

Example encode_3x2_black :
  encode 3 2 (replicate 6 (px 0 0 0)) =
  Wrote [113; 111; 105; 102; 0; 0; 0; 3; 0; 0; 0; 2; 3; 0;
         0; 0; 0; 0; 0; 0; 0; 1] None.
Proof. vm_compute. reflexivity. Qed.

(** ** Bytes *)

Lemma range_check (P : Z -> bool) (n : nat) :
  forallb P (map Z.of_nat (seq 0 n)) = true ->
  forall x, 0 <= x < Z.of_nat n -> P x = true.
Proof.
  intros Hall x Hx.
  rewrite forallb_forall in Hall. apply Hall.
  apply in_map_iff. exists (Z.to_nat x). split; [lia|].
  apply in_seq. lia.
Qed.

Lemma to_bytes_1 n : 0 <= n < 256 -> to_bytes n 1 = Ok [n].
Proof.
  intros Hn. unfold to_bytes.
  replace (256 ^ Z.of_nat 1) with 256 by reflexivity.
  destruct (Z.leb_spec 0 n); [|lia].
  destruct (Z.ltb_spec n 256); [|lia].
  cbn [andb be_bytes]. replace (256 ^ Z.of_nat 0) with 1 by reflexivity.
  rewrite Z.div_1_r, Z.mod_small by lia. reflexivity.
Qed.

Lemma run_byte_add rc : 1 <= rc <= 64 -> run_byte rc = 191 + rc.
Proof.
  intros Hrc. unfold run_byte.
  pose proof (range_check (fun x => Z.lor 192 x =? 192 + x) 64 eq_refl (rc - 1)) as H.
  cbv beta in H. apply Z.eqb_eq in H; lia.
Qed.

Lemma diff_byte_add dr dg db :
  -2 <= dr <= 1 -> -2 <= dg <= 1 -> -2 <= db <= 1 ->
  diff_byte dr dg db = 64 + 16 * (dr + 2) + 4 * (dg + 2) + (db + 2).
Proof.
  intros Hr Hg Hb.
  assert (dr = -2 \/ dr = -1 \/ dr = 0 \/ dr = 1) as [-> | [-> | [-> | ->]]] by lia;
  assert (dg = -2 \/ dg = -1 \/ dg = 0 \/ dg = 1) as [-> | [-> | [-> | ->]]] by lia;
  assert (db = -2 \/ db = -1 \/ db = 0 \/ db = 1) as [-> | [-> | [-> | ->]]] by lia;
  reflexivity.
Qed.

Lemma small_delta_spec dr dg db :
  small_delta dr dg db = true <->
  -2 <= dr <= 1 /\ -2 <= dg <= 1 /\ -2 <= db <= 1.
Proof.
  unfold small_delta. rewrite !andb_true_iff, !Z.ltb_lt. lia.
Qed.

Lemma index_hash_px r g b : index_hash (px r g b) = Ok (hash_of r g b).
Proof. reflexivity. Qed.

Lemma hash_of_range r g b : 0 <= hash_of r g b < 64.
Proof. unfold hash_of. apply Z.mod_pos_bound. lia. Qed.

Lemma py_eq_true a b : py_eq a b = true <-> a = b.
Proof.
  destruct a, b; cbn; rewrite ?bool_decide_eq_true; split; congruence.
Qed.

Lemma py_eq_false a b : py_eq a b = false <-> a <> b.
Proof.
  rewrite <- py_eq_true. destruct (py_eq a b); split; congruence.
Qed.

(** ** The file is only ever appended to *)

Lemma appends_ret {A} (a : A) : appends (io_ret a).
Proof. intros fo. cbn. by rewrite app_nil_r. Qed.

Lemma appends_raise {A} e : appends (@io_raise A e).
Proof. intros fo. cbn. by rewrite app_nil_r. Qed.

Lemma appends_eval {A} (r : result A) : appends (eval r).
Proof. intros fo. cbn. by rewrite app_nil_r. Qed.

Lemma appends_write bs : appends (fo_write bs).
Proof. intros fo. reflexivity. Qed.

Lemma appends_bind {A B} (m : io A) (k : A -> io B) :
  appends m -> (forall a, appends (k a)) -> appends (io_bind m k).
Proof.
  intros Hm Hk fo. unfold io_bind.
  rewrite (Hm fo). destruct (m []) as [out [a | e]]; cbn.
  - rewrite (Hk a (fo ++ out)), (Hk a out). cbn. by rewrite app_assoc.
  - reflexivity.
Qed.

Lemma appends_if {A} (c : bool) (m1 m2 : io A) :
  appends m1 -> appends m2 -> appends (if c then m1 else m2).
Proof. by destruct c. Qed.

Create HintDb appends.
#[local] Hint Resolve appends_ret appends_raise appends_eval appends_write : appends.

Ltac appends_tac :=
  repeat first
    [ apply appends_bind; [|intros ?]
    | apply appends_if
    | solve [auto with appends] ].

Lemma appends_flush_run rc : appends (flush_run rc).
Proof. unfold flush_run. appends_tac. Qed.

Lemma appends_loop_body w h st rgb : appends (loop_body w h st rgb).
Proof.
  unfold loop_body. pose proof appends_flush_run. appends_tac.
Qed.

Lemma appends_for_each w h pixVals st :
  appends (for_each (loop_body w h) pixVals st).
Proof.
  revert st. induction pixVals as [|rgb rest IH]; intros st; cbn [for_each].
  - apply appends_ret.
  - apply appends_bind; [apply appends_loop_body | apply IH].
Qed.

Lemma for_each_app body (xs ys : list pyseq) st fo :
  for_each body (xs ++ ys) st fo =
  io_bind (for_each body xs st) (for_each body ys) fo.
Proof.
  revert st fo. induction xs as [|x xs IH]; intros st fo; cbn [for_each app].
  - reflexivity.
  - unfold io_bind in *. destruct (body st x fo) as [fo' [st' | e]].
    + apply IH.
    + reflexivity.
Qed.

(** ** One loop iteration on an RGB pixel *)

Section Step.
Variables (width height : Z) (st : locals) (fo : list Z).
Variables (r g b l0 l1 l2 : Z).
Hypothesis Hlast : items (last st) = [l0; l1; l2].
Hypothesis Hrc : 0 <= run_counter st <= 62.

Lemma run_test_px :
  run_test st (px r g b) =
  Ok ((l0 =? r) && ((l1 =? g) && ((l2 =? b) && (run_counter st <? 62)))).
Proof.
  unfold run_test, chan_eq, subscript. rewrite Hlast. cbn.
  destruct (l0 =? r), (l1 =? g), (l2 =? b); reflexivity.
Qed.

Lemma flush_run_ok :
  flush_run (run_counter st) fo = (fo ++ flushed (run_counter st), Ok 0).
Proof.
  unfold flush_run, flushed.
  destruct (Z.ltb_spec 0 (run_counter st)).
  - unfold io_bind, eval. rewrite to_bytes_1; [reflexivity|].
    rewrite run_byte_add; lia.
  - assert (run_counter st = 0) as -> by lia.
    unfold io_ret. by rewrite app_nil_r.
Qed.

Lemma step_run :
  run_test st (px r g b) = Ok true ->
  loop_body width height st (px r g b) fo =
  (fo, Ok {| index := index st; last := last st;
             run_counter := run_counter st + 1; current := current st + 1 |}).
Proof.
  intros Hrun. unfold loop_body, io_bind, eval.
  rewrite index_hash_px, Hrun. reflexivity.
Qed.

Lemma step_index :
  run_test st (px r g b) = Ok false ->
  index st !! Z.to_nat (hash_of r g b) = Some (px r g b) ->
  loop_body width height st (px r g b) fo =
  (fo ++ flushed (run_counter st) ++ [hash_of r g b],
   Ok {| index := index st; last := px r g b;
         run_counter := 0; current := current st + 1 |}).
Proof.
  intros Hrun Hslot. unfold loop_body, io_bind, eval.
  rewrite index_hash_px, Hrun, flush_run_ok.
  unfold slot_at. rewrite Hslot.
  replace (py_eq (px r g b) (px r g b)) with true by (symmetry; by apply py_eq_true).
  cbn [negb]. rewrite to_bytes_1 by (pose proof (hash_of_range r g b); lia).
  unfold fo_write, io_ret. by rewrite <- app_assoc.
Qed.

Lemma step_diff slot :
  run_test st (px r g b) = Ok false ->
  index st !! Z.to_nat (hash_of r g b) = Some slot ->
  slot <> px r g b ->
  small_delta (r - l0) (g - l1) (b - l2) = true ->
  loop_body width height st (px r g b) fo =
  (fo ++ flushed (run_counter st) ++ [diff_byte (r - l0) (g - l1) (b - l2)],
   Ok {| index := <[Z.to_nat (hash_of r g b) := px r g b]> (index st);
         last := px r g b;
         run_counter := 0; current := current st + 1 |}).
Proof.
  intros Hrun Hslot Hne Hsmall. unfold loop_body, io_bind, eval.
  rewrite index_hash_px, Hrun, flush_run_ok.
  unfold slot_at. rewrite Hslot.
  replace (py_eq (px r g b) slot) with false
    by (symmetry; apply py_eq_false; congruence).
  cbn [negb]. unfold subscript. rewrite Hlast. cbn [items px lookup list_lookup].
  rewrite Hsmall.
  apply small_delta_spec in Hsmall.
  rewrite to_bytes_1 by (rewrite diff_byte_add; lia).
  unfold fo_write, io_ret. by rewrite <- app_assoc.
Qed.

Lemma step_literal slot :
  run_test st (px r g b) = Ok false ->
  index st !! Z.to_nat (hash_of r g b) = Some slot ->
  slot <> px r g b ->
  small_delta (r - l0) (g - l1) (b - l2) = false ->
  0 <= r < 256 -> 0 <= g < 256 -> 0 <= b < 256 ->
  loop_body width height st (px r g b) fo =
  (fo ++ flushed (run_counter st) ++ [254; r; g; b],
   if width * height =? 0 then Raise ZeroDivisionError else
   Ok {| index := <[Z.to_nat (hash_of r g b) := px r g b]> (index st);
         last := px r g b;
         run_counter := 0; current := current st + 1 |}).
Proof.
  intros Hrun Hslot Hne Hbig Hr Hg Hb. unfold loop_body, io_bind, eval.
  rewrite index_hash_px, Hrun, flush_run_ok.
  unfold slot_at. rewrite Hslot.
  replace (py_eq (px r g b) slot) with false
    by (symmetry; apply py_eq_false; congruence).
  cbn [negb]. unfold subscript. rewrite Hlast. cbn [items px lookup list_lookup rbind].
  rewrite Hbig.
  rewrite !to_bytes_1 by lia.
  unfold fo_write, io_ret, io_raise. rewrite <- !app_assoc. cbn [app].
  destruct (width * height =? 0); reflexivity.
Qed.
End Step.

(** ** What holds of the loop state after any number of pixels *)

Lemma most_recent_snoc k seen p :
  most_recent k (seen ++ [p]) =
  if bool_decide (index_hash p = Ok k) then Some p else most_recent k seen.
Proof.
  induction seen as [|q seen IH]; cbn [most_recent app].
  - reflexivity.
  - rewrite IH. destruct (bool_decide (index_hash p = Ok k)); [reflexivity|].
    reflexivity.
Qed.

Lemma inv_init : inv [] init_locals.
Proof.
  split; cbn.
  - reflexivity.
  - lia.
  - left. repeat split. constructor.
  - intros k Hk. apply (lookup_replicate_2 64). lia.
Qed.

Lemma inv_last_items seen st :
  inv seen st -> exists l0 l1 l2, items (last st) = [l0; l1; l2].
Proof.
  intros [_ _ [(-> & _) | (r & g & b & pre & -> & _)] _]; cbn; eauto.
Qed.

Lemma hash_slot_inj r g b k :
  0 <= k < 64 -> Z.to_nat (hash_of r g b) = Z.to_nat k -> hash_of r g b = k.
Proof. pose proof (hash_of_range r g b). lia. Qed.

(** The four ways through the loop body, for a state the loop can be in. *)
Lemma step_cases width height seen st r g b fo :
  inv seen st ->
  0 <= r < 256 -> 0 <= g < 256 -> 0 <= b < 256 ->
  exists l0 l1 l2, items (last st) = [l0; l1; l2] /\
  ((run_test st (px r g b) = Ok true /\
    loop_body width height st (px r g b) fo =
    (fo, Ok {| index := index st; last := last st;
               run_counter := run_counter st + 1; current := current st + 1 |}))
   \/
   (run_test st (px r g b) = Ok false /\
    index st !! Z.to_nat (hash_of r g b) = Some (px r g b) /\
    loop_body width height st (px r g b) fo =
    (fo ++ flushed (run_counter st) ++ [hash_of r g b],
     Ok {| index := index st; last := px r g b;
           run_counter := 0; current := current st + 1 |}))
   \/
   (run_test st (px r g b) = Ok false /\
    (exists slot, index st !! Z.to_nat (hash_of r g b) = Some slot /\
                  slot <> px r g b) /\
    small_delta (r - l0) (g - l1) (b - l2) = true /\
    loop_body width height st (px r g b) fo =
    (fo ++ flushed (run_counter st) ++ [diff_byte (r - l0) (g - l1) (b - l2)],
     Ok {| index := <[Z.to_nat (hash_of r g b) := px r g b]> (index st);
           last := px r g b;
           run_counter := 0; current := current st + 1 |}))
   \/
   (run_test st (px r g b) = Ok false /\
    (exists slot, index st !! Z.to_nat (hash_of r g b) = Some slot /\
                  slot <> px r g b) /\
    small_delta (r - l0) (g - l1) (b - l2) = false /\
    loop_body width height st (px r g b) fo =
    (fo ++ flushed (run_counter st) ++ [254; r; g; b],
     if width * height =? 0 then Raise ZeroDivisionError else
     Ok {| index := <[Z.to_nat (hash_of r g b) := px r g b]> (index st);
           last := px r g b;
           run_counter := 0; current := current st + 1 |}))).
Proof.
  intros Hinv Hr Hg Hb.
  destruct (inv_last_items _ _ Hinv) as (l0 & l1 & l2 & Hlast).
  exists l0, l1, l2. split; [exact Hlast|].
  pose proof (inv_rc _ _ Hinv) as Hrc.
  pose proof (run_test_px st r g b l0 l1 l2 Hlast) as Hrun.
  destruct ((l0 =? r) && ((l1 =? g) && ((l2 =? b) && (run_counter st <? 62)))).
  { left. split; [exact Hrun|]. by apply step_run. }
  right.
  destruct (index st !! Z.to_nat (hash_of r g b)) as [slot|] eqn:Hslot.
  2:{ apply lookup_ge_None in Hslot. rewrite (inv_len _ _ Hinv) in Hslot.
      pose proof (hash_of_range r g b). lia. }
  destruct (decide (slot = px r g b)) as [-> | Hne].
  { left. repeat split; [exact Hrun|]. by eapply step_index. }
  right.
  destruct (small_delta (r - l0) (g - l1) (b - l2)) eqn:Hd.
  - left. repeat split; [exact Hrun | by exists slot | ].
    by eapply step_diff.
  - right. repeat split; [exact Hrun | by exists slot | ].
    by eapply step_literal.
Qed.

Lemma run_test_true st r g b l0 l1 l2 :
  items (last st) = [l0; l1; l2] ->
  run_test st (px r g b) = Ok true ->
  l0 = r /\ l1 = g /\ l2 = b /\ run_counter st < 62.
Proof.
  intros Hlast Hrun. rewrite (run_test_px st r g b l0 l1 l2 Hlast) in Hrun.
  injection Hrun as Hrun. rewrite !andb_true_iff, !Z.eqb_eq, Z.ltb_lt in Hrun.
  tauto.
Qed.

Lemma slot_ok_hit (index : list pyseq) k p q :
  index !! k = Some q -> items q = items p -> slot_ok (index !! k) (Some p).
Proof. intros -> Hq. cbn. by rewrite Hq. Qed.

(** The table part of the invariant, when the slot of [p] comes to hold [p]
    (or held its channel values already) and the other slots stay. *)
Lemma table_step seen (idx idx' : list pyseq) r g b :
  (forall k, 0 <= k < 64 -> slot_ok (idx !! Z.to_nat k) (most_recent k seen)) ->
  (exists q, idx' !! Z.to_nat (hash_of r g b) = Some q /\ items q = [r; g; b]) ->
  (forall k, 0 <= k < 64 -> k <> hash_of r g b ->
             idx' !! Z.to_nat k = idx !! Z.to_nat k) ->
  forall k, 0 <= k < 64 ->
    slot_ok (idx' !! Z.to_nat k) (most_recent k (seen ++ [px r g b])).
Proof.
  intros Htable (q & Hq & Hitems) Hother k Hk.
  rewrite most_recent_snoc, index_hash_px.
  case_bool_decide as Hhash.
  - injection Hhash as <-. by eapply slot_ok_hit.
  - rewrite Hother; [by apply Htable | done | congruence].
Qed.

Lemma inv_step width height seen st p fo fo' st' :
  inv seen st -> rgb_pixel p ->
  loop_body width height st p fo = (fo', Ok st') ->
  inv (seen ++ [p]) st'.
Proof.
  intros Hinv (r & g & b & -> & Hr & Hg & Hb) Hstep.
  destruct (step_cases width height seen st r g b fo Hinv Hr Hg Hb)
    as (l0 & l1 & l2 & Hlast & Hcases).
  pose proof (hash_of_range r g b) as Hh.
  destruct Hinv as [Hlen Hrc Hl Htable].
  destruct Hcases as
    [(Hrun & Heq) | [(Hrun & Hslot & Heq) |
    [(Hrun & (slot & Hslot & Hne) & Hd & Heq) |
     (Hrun & (slot & Hslot & Hne) & Hd & Heq)]]];
    rewrite Heq in Hstep.
  - (* the run goes on *)
    injection Hstep as _ <-.
    destruct (run_test_true _ _ _ _ _ _ _ Hlast Hrun) as (-> & -> & -> & Hlt).
    split; cbn [index last run_counter].
    + done.
    + lia.
    + destruct Hl as [(Hz & Hidx & Hall & Hn) | (r' & g' & b' & pre & Hp & Hseen & Hs)].
      * left. rewrite Hz in Hlast. injection Hlast as <- <- <-.
        repeat split; [done | done | |].
        -- apply Forall_app. split; [done | by constructor].
        -- rewrite length_app. cbn. lia.
      * right. rewrite Hp in Hlast. injection Hlast as -> -> ->.
        exists r, g, b, seen. by repeat split.
    + apply (table_step seen (index st)); [done | | done].
      destruct Hl as [(Hz & Hidx & _) | (r' & g' & b' & pre & Hp & _ & Hs)].
      * rewrite Hz in Hlast. injection Hlast as <- <- <-.
        exists (PyList [0; 0; 0]). split; [|done].
        rewrite Hidx. apply lookup_replicate_2.
        pose proof (hash_of_range 0 0 0). lia.
      * rewrite Hp in Hlast. injection Hlast as -> -> ->.
        by exists (px r g b).
  - (* index hit *)
    injection Hstep as _ <-.
    split; cbn [index last run_counter].
    + done.
    + lia.
    + right. by exists r, g, b, seen.
    + apply (table_step seen (index st)); [done | by exists (px r g b) | done].
  - (* small difference *)
    injection Hstep as _ <-.
    assert (Z.to_nat (hash_of r g b) < length (index st))%nat as Hin by lia.
    split; cbn [index last run_counter].
    + by rewrite length_insert.
    + lia.
    + right. exists r, g, b, seen. repeat split. by apply list_lookup_insert_eq.
    + apply (table_step seen (index st)); [done | | ].
      * exists (px r g b). split; [by apply list_lookup_insert_eq | done].
      * intros k Hk Hkne. apply list_lookup_insert_ne. lia.
  - (* full r,g,b values *)
    destruct (width * height =? 0); [discriminate|].
    injection Hstep as _ <-.
    assert (Z.to_nat (hash_of r g b) < length (index st))%nat as Hin by lia.
    split; cbn [index last run_counter].
    + by rewrite length_insert.
    + lia.
    + right. exists r, g, b, seen. repeat split. by apply list_lookup_insert_eq.
    + apply (table_step seen (index st)); [done | | ].
      * exists (px r g b). split; [by apply list_lookup_insert_eq | done].
      * intros k Hk Hkne. apply list_lookup_insert_ne. lia.
Qed.

Lemma reaches_nil width height st :
  reaches width height [] st <-> st = init_locals.
Proof. unfold reaches. cbn. split; congruence. Qed.

Lemma opcodes_reaches_snoc width height seen p :
  for_each (loop_body width height) (seen ++ [p]) init_locals [] =
  match snd (for_each (loop_body width height) seen init_locals []) with
  | Ok st =>
      match loop_body width height st p (opcodes width height seen) with
      | (fo', Ok st') => (fo', Ok st')
      | (fo', Raise e) => (fo', Raise e)
      end
  | Raise e => (opcodes width height seen, Raise e)
  end.
Proof.
  rewrite for_each_app. unfold io_bind, opcodes.
  destruct (for_each (loop_body width height) seen init_locals []) as [fo [st|e]];
    cbn [fst snd for_each]; [|reflexivity].
  unfold io_bind, io_ret.
  by destruct (loop_body width height st p fo) as [fo' [st'|e]].
Qed.

Lemma reaches_snoc width height seen p st' :
  reaches width height (seen ++ [p]) st' <->
  exists st, reaches width height seen st /\
             snd (loop_body width height st p (opcodes width height seen)) = Ok st'.
Proof.
  unfold reaches. rewrite opcodes_reaches_snoc.
  destruct (snd (for_each (loop_body width height) seen init_locals [])) as [st|e].
  - destruct (loop_body width height st p (opcodes width height seen))
      as [fo' [st2|e]] eqn:Hb; cbn [snd]; split.
    + intros H. exists st. by rewrite Hb.
    + intros (st0 & [= <-] & H). by rewrite Hb in H.
    + discriminate.
    + intros (st0 & [= <-] & H). by rewrite Hb in H.
  - cbn [snd]. split; [discriminate | intros (st0 & H & _); discriminate].
Qed.

(** Every state the loop reaches on RGB pixels satisfies the invariant. *)
Lemma reaches_inv width height seen st :
  Forall rgb_pixel seen -> reaches width height seen st -> inv seen st.
Proof.
  revert st. induction seen as [|p seen IH] using rev_ind; intros st Hall Hreach.
  - apply reaches_nil in Hreach as ->. apply inv_init.
  - apply Forall_app in Hall as [Hall Hp]. inversion Hp as [|? ? Hp' _]; subst.
    apply reaches_snoc in Hreach as (st0 & Hreach & Hstep).
    destruct (loop_body width height st0 p (opcodes width height seen))
      as [fo' r] eqn:Hb. cbn [snd] in Hstep. subst r.
    eapply inv_step; [by apply IH | done | exact Hb].
Qed.

(** On RGB pixels, and with a non-empty image size, the loop runs to its end. *)
Lemma loop_total width height seen :
  Forall rgb_pixel seen -> width * height <> 0 ->
  exists st, reaches width height seen st.
Proof.
  intros Hall Hsize. induction seen as [|p seen IH] using rev_ind.
  - exists init_locals. by apply reaches_nil.
  - apply Forall_app in Hall as [Hall Hp]. inversion Hp as [|? ? Hp' _]; subst.
    destruct (IH Hall) as (st & Hreach).
    pose proof (reaches_inv _ _ _ _ Hall Hreach) as Hinv.
    destruct Hp' as (r & g & b & -> & Hr & Hg & Hb).
    destruct (step_cases width height seen st r g b (opcodes width height seen)
                Hinv Hr Hg Hb) as (l0 & l1 & l2 & _ & Hcases).
    apply Z.eqb_neq in Hsize.
    destruct Hcases as
      [(_ & Heq) | [(_ & _ & Heq) | [(_ & _ & _ & Heq) | (_ & _ & _ & Heq)]]];
      rewrite ?Hsize in Heq;
      (eexists; apply reaches_snoc; exists st; split; [exact Hreach|];
       rewrite Heq; reflexivity).
Qed.

(** ** The whole file *)

Lemma to_bytes_4 n : 0 <= n < 2 ^ 32 -> to_bytes n 4 = Ok (be_bytes 4 n).
Proof.
  intros Hn. unfold to_bytes.
  replace (256 ^ Z.of_nat 4) with (2 ^ 32) by reflexivity.
  destruct (Z.leb_spec 0 n); [|lia].
  destruct (Z.ltb_spec n (2 ^ 32)); [reflexivity | lia].
Qed.

Lemma to_bytes_overflow n len :
  n < 0 \/ 256 ^ Z.of_nat len <= n -> to_bytes n len = Raise OverflowError.
Proof.
  intros Hn. unfold to_bytes.
  destruct (Z.leb_spec 0 n); [|reflexivity].
  destruct (Z.ltb_spec n (256 ^ Z.of_nat len)); [lia | reflexivity].
Qed.

(** With dimensions that fit 32 bits the file is the header, the loop's
    bytes and, unless the loop raised, the end marker. *)
Lemma encode_file width height pixVals :
  0 <= width < 2 ^ 32 -> 0 <= height < 2 ^ 32 ->
  encode width height pixVals =
  match snd (for_each (loop_body width height) pixVals init_locals []) with
  | Ok _ => Wrote (header width height ++ opcodes width height pixVals ++ trailer) None
  | Raise e => Wrote (header width height ++ opcodes width height pixVals) (Some e)
  end.
Proof.
  intros Hw Hh. unfold encode.
  rewrite (to_bytes_4 width Hw), (to_bytes_4 height Hh).
  cbn [rbind]. rewrite !to_bytes_1 by lia. cbn [rbind].
  unfold write_file, io_bind, fo_write. cbn [app].
  rewrite (appends_for_each width height pixVals init_locals).
  fold (opcodes width height pixVals).
  assert ((((magic ++ be_bytes 4 width) ++ be_bytes 4 height) ++ [3]) ++ [0]
          = header width height) as ->.
  { unfold header. by rewrite <- !app_assoc. }
  destruct (snd (for_each (loop_body width height) pixVals init_locals [])).
  - by rewrite <- app_assoc.
  - reflexivity.
Qed.

(** ** The header *)

Lemma be_bytes_4 n :
  be_bytes 4 n =
  [(n / 2 ^ 24) mod 256; (n / 2 ^ 16) mod 256; (n / 2 ^ 8) mod 256; n mod 256].
Proof.
  cbn [be_bytes].
  change (256 ^ Z.of_nat 3) with (2 ^ 24). change (256 ^ Z.of_nat 2) with (2 ^ 16).
  change (256 ^ Z.of_nat 1) with (2 ^ 8). change (256 ^ Z.of_nat 0) with 1.
  by rewrite Z.div_1_r.
Qed.

(** The four bytes are the base-256 digits of [n], most significant first. *)
Lemma be_bytes_4_value n :
  0 <= n < 2 ^ 32 ->
  n = (n / 2 ^ 24) mod 256 * 2 ^ 24 + (n / 2 ^ 16) mod 256 * 2 ^ 16
      + (n / 2 ^ 8) mod 256 * 2 ^ 8 + n mod 256.
Proof.
  intros Hn.
  change (2 ^ 24) with (2 ^ 16 * 256). change (2 ^ 16) with (2 ^ 8 * 256).
  change (2 ^ 8) with 256.
  rewrite <- !Z.div_div by lia.
  pose proof (Z.div_mod n 256 ltac:(lia)) as H0.
  pose proof (Z.div_mod (n / 256) 256 ltac:(lia)) as H1.
  pose proof (Z.div_mod (n / 256 / 256) 256 ltac:(lia)) as H2.
  assert (n / 256 / 256 / 256 < 256) as H3.
  { rewrite !Z.div_div by lia. apply Z.div_lt_upper_bound; lia. }
  assert (0 <= n / 256 / 256 / 256) as H4 by (repeat apply Z.div_pos; lia).
  rewrite (Z.mod_small (n / 256 / 256 / 256)) by lia.
  lia.
Qed.

(** C8: for every valid width and height the output begins with the 14
    header bytes: the ASCII magic "qoif", the width and the height as 4-byte
    big-endian unsigned integers (four base-256 digits, most significant
    first, that add up to the number), the channel count 3 and the colour
    space 0; whatever the pixels are.  For a 3 x 2 image these are
    "qoif", 00 00 00 03, 00 00 00 02, 03, 00. *)
Theorem header_bytes (width height : Z) (pixVals : list pyseq) :
  0 < width < 2 ^ 32 -> 0 < height < 2 ^ 32 ->
  exists w3 w2 w1 w0 h3 h2 h1 h0 rest e,
    encode width height pixVals =
      Wrote ([113; 111; 105; 102] ++ [w3; w2; w1; w0] ++ [h3; h2; h1; h0]
             ++ [3] ++ [0] ++ rest) e /\
    Forall (fun d => 0 <= d < 256) [w3; w2; w1; w0; h3; h2; h1; h0] /\
    width = w3 * 2 ^ 24 + w2 * 2 ^ 16 + w1 * 2 ^ 8 + w0 /\
    height = h3 * 2 ^ 24 + h2 * 2 ^ 16 + h1 * 2 ^ 8 + h0 /\
    (width = 3 -> height = 2 ->
     firstn 14 ([113; 111; 105; 102] ++ [w3; w2; w1; w0] ++ [h3; h2; h1; h0]
                ++ [3] ++ [0] ++ rest)
     = [113; 111; 105; 102; 0; 0; 0; 3; 0; 0; 0; 2; 3; 0]).
Proof.
  intros Hw Hh.
  exists ((width / 2 ^ 24) mod 256), ((width / 2 ^ 16) mod 256),
         ((width / 2 ^ 8) mod 256), (width mod 256),
         ((height / 2 ^ 24) mod 256), ((height / 2 ^ 16) mod 256),
         ((height / 2 ^ 8) mod 256), (height mod 256).
  rewrite encode_file by lia. unfold header. rewrite !be_bytes_4.
  assert (forall n k, 0 <= (n / k) mod 256 < 256) as Hdigit
    by (intros; apply Z.mod_pos_bound; lia).
  assert (forall n, 0 <= n mod 256 < 256) as Hdigit0
    by (intros; apply Z.mod_pos_bound; lia).
  destruct (snd (for_each (loop_body width height) pixVals init_locals [])) as [st|e].
  - exists (opcodes width height pixVals ++ trailer), None.
    split; [reflexivity|]. split; [repeat (constructor; [solve [auto]|]); constructor|].
    split; [apply be_bytes_4_value; lia|]. split; [apply be_bytes_4_value; lia|].
    intros -> ->. reflexivity.
  - exists (opcodes width height pixVals), (Some e).
    split; [reflexivity|]. split; [repeat (constructor; [solve [auto]|]); constructor|].
    split; [apply be_bytes_4_value; lia|]. split; [apply be_bytes_4_value; lia|].
    intros -> ->. reflexivity.
Qed.

Lemma header_bytes_witness :
  exists w3 w2 w1 w0 h3 h2 h1 h0 rest e,
    encode 3 2 (replicate 6 (px 7 7 7)) =
      Wrote ([113; 111; 105; 102] ++ [w3; w2; w1; w0] ++ [h3; h2; h1; h0]
             ++ [3] ++ [0] ++ rest) e /\
    Forall (fun d => 0 <= d < 256) [w3; w2; w1; w0; h3; h2; h1; h0] /\
    3 = w3 * 2 ^ 24 + w2 * 2 ^ 16 + w1 * 2 ^ 8 + w0 /\
    2 = h3 * 2 ^ 24 + h2 * 2 ^ 16 + h1 * 2 ^ 8 + h0 /\
    (3 = 3 -> 2 = 2 ->
     firstn 14 ([113; 111; 105; 102] ++ [w3; w2; w1; w0] ++ [h3; h2; h1; h0]
                ++ [3] ++ [0] ++ rest)
     = [113; 111; 105; 102; 0; 0; 0; 3; 0; 0; 0; 2; 3; 0]).
Proof. apply (header_bytes 3 2 (replicate 6 (px 7 7 7))); lia. Defined.

(** ** Dimensions *)




(** ** The run that is open when the pixels end *)

(** C1 fails on the code: after the loop, line 140 writes the end marker and
    nothing else.  For two equal pixels the second one only raises
    [run_counter]; the file holds the literal of the first pixel and no run
    byte, and is the same file as for the first pixel alone. *)
Theorem trailing_run_dropped :
  encode 2 1 [px 5 5 5; px 5 5 5] =
    Wrote ([113; 111; 105; 102; 0; 0; 0; 2; 0; 0; 0; 1; 3; 0]
           ++ [254; 5; 5; 5]
           ++ [0; 0; 0; 0; 0; 0; 0; 1]) None /\
  reaches 2 1 [px 5 5 5; px 5 5 5]
    {| index := <[Z.to_nat 0 := px 5 5 5]> (replicate 64 (PyList [0; 0; 0]));
       last := px 5 5 5; run_counter := 1; current := 2 |} /\
  encode 2 1 [px 5 5 5; px 5 5 5] = encode 2 1 [px 5 5 5].
Proof.
  split; [vm_compute; reflexivity|].
  split; [vm_compute; reflexivity|].
  vm_compute. reflexivity.
Qed.

(** ** Calls of [encode] and the output directory *)









(** Two states in which the file is not opened. *)
Example output_is_a_regular_file :
  encode_in {| cwd_writable := true; output := NotADirectory |}
            "img" 1 1 [px 1 2 3]
  = ({| cwd_writable := true; output := NotADirectory |},
     OpenFailed NotADirectoryError).
Proof. reflexivity. Qed.

Example output_cannot_be_made :
  encode_in {| cwd_writable := false; output := Absent |} "img" 1 1 [px 1 2 3]
  = ({| cwd_writable := false; output := Absent |}, MkdirFailed PermissionError).
Proof. reflexivity. Qed.

(** ** The pixel misses the index: difference or full values *)

Lemma step_miss width height seen st r g b l0 l1 l2 fo :
  inv seen st ->
  items (last st) = [l0; l1; l2] ->
  0 <= r < 256 -> 0 <= g < 256 -> 0 <= b < 256 ->
  run_test st (px r g b) = Ok false ->
  index st !! Z.to_nat (hash_of r g b) <> Some (px r g b) ->
  loop_body width height st (px r g b) fo =
  if small_delta (r - l0) (g - l1) (b - l2)
  then (fo ++ flushed (run_counter st) ++ [diff_byte (r - l0) (g - l1) (b - l2)],
        Ok (stored st r g b))
  else (fo ++ flushed (run_counter st) ++ [254; r; g; b],
        if width * height =? 0 then Raise ZeroDivisionError
        else Ok (stored st r g b)).
Proof.
  intros Hinv Hlast Hr Hg Hb Hrun Hmiss.
  pose proof (inv_rc _ _ Hinv) as Hrc.
  destruct (index st !! Z.to_nat (hash_of r g b)) as [slot|] eqn:Hslot.
  2:{ apply lookup_ge_None in Hslot. rewrite (inv_len _ _ Hinv) in Hslot.
      pose proof (hash_of_range r g b). lia. }
  assert (slot <> px r g b) as Hne by congruence.
  destruct (small_delta (r - l0) (g - l1) (b - l2)) eqn:Hd.
  - by eapply step_diff.
  - by eapply step_literal.
Qed.

(** C7: when the pixel P = (r,g,b) has reached the small-delta test (it did
    not continue a run and the index lookup missed) and all three deltas to
    [last] lie in [-2, 1], the loop body writes, after the byte of a pending
    run if there is one, exactly one byte for P:
    [64 | (dr+2) << 4 | (dg+2) << 2 | (db+2)], which has 01 in its two high
    bits and the biased deltas in the three 2-bit fields below.  From
    (10,10,10) the pixel (11,8,11) is written as that one byte, the pixel
    (12,8,11) as the four bytes of the literal. *)
Theorem small_delta_opcode (width height : Z) (seen : list pyseq) (st : locals)
    (r g b l0 l1 l2 : Z) (fo : list Z) :
  Forall rgb_pixel seen -> reaches width height seen st ->
  items (last st) = [l0; l1; l2] ->
  run_test st (px r g b) = Ok false ->
  index st !! Z.to_nat (hash_of r g b) <> Some (px r g b) ->
  -2 <= r - l0 <= 1 -> -2 <= g - l1 <= 1 -> -2 <= b - l2 <= 1 ->
  let dr := r - l0 in
  let dg := g - l1 in
  let db := b - l2 in
  let byte := Z.lor (Z.lor (Z.lor 64 (Z.shiftl (dr + 2) 4)) (Z.shiftl (dg + 2) 2))
                    (db + 2) in
  loop_body width height st (px r g b) fo =
    (fo ++ flushed (run_counter st) ++ [byte], Ok (stored st r g b)) /\
  byte = 64 + 16 * (dr + 2) + 4 * (dg + 2) + (db + 2) /\
  Z.testbit byte 7 = false /\ Z.testbit byte 6 = true /\
  opcodes 2 1 [px 10 10 10; px 11 8 11] = [254; 10; 10; 10] ++ [115] /\
  opcodes 2 1 [px 10 10 10; px 12 8 11] = [254; 10; 10; 10] ++ [254; 12; 8; 11].
Proof.
  intros Hall Hreach Hlast Hrun Hmiss Hdr Hdg Hdb dr dg db byte.
  pose proof (reaches_inv _ _ _ _ Hall Hreach) as Hinv.
  pose proof (inv_rc _ _ Hinv) as Hrc.
  assert (small_delta dr dg db = true) as Hd by (apply small_delta_spec; done).
  assert (byte = 64 + 16 * (dr + 2) + 4 * (dg + 2) + (db + 2)) as Hbyte
    by (apply diff_byte_add; done).
  destruct (index st !! Z.to_nat (hash_of r g b)) as [slot|] eqn:Hslot.
  2:{ apply lookup_ge_None in Hslot. rewrite (inv_len _ _ Hinv) in Hslot.
      pose proof (hash_of_range r g b). lia. }
  assert (slot <> px r g b) as Hne by congruence.
  split; [|split; [exact Hbyte|]].
  - by eapply step_diff.
  - assert (dr = -2 \/ dr = -1 \/ dr = 0 \/ dr = 1) as Cr by lia.
    assert (dg = -2 \/ dg = -1 \/ dg = 0 \/ dg = 1) as Cg by lia.
    assert (db = -2 \/ db = -1 \/ db = 0 \/ db = 1) as Cb by lia.
    subst byte. clearbody dr dg db.
    destruct Cr as [-> | [-> | [-> | ->]]], Cg as [-> | [-> | [-> | ->]]],
             Cb as [-> | [-> | [-> | ->]]]; repeat split.
Qed.

Lemma small_delta_opcode_witness :
  let st := stored init_locals 10 10 10 in
  let byte := Z.lor (Z.lor (Z.lor 64 (Z.shiftl (11 - 10 + 2) 4))
                           (Z.shiftl (8 - 10 + 2) 2)) (11 - 10 + 2) in
  loop_body 2 1 st (px 11 8 11) [254; 10; 10; 10] =
    ([254; 10; 10; 10] ++ flushed (run_counter st) ++ [byte],
     Ok (stored st 11 8 11)) /\
  byte = 64 + 16 * (11 - 10 + 2) + 4 * (8 - 10 + 2) + (11 - 10 + 2) /\
  Z.testbit byte 7 = false /\ Z.testbit byte 6 = true /\
  opcodes 2 1 [px 10 10 10; px 11 8 11] = [254; 10; 10; 10] ++ [115] /\
  opcodes 2 1 [px 10 10 10; px 12 8 11] = [254; 10; 10; 10] ++ [254; 12; 8; 11].
Proof.
  apply (small_delta_opcode 2 1 [px 10 10 10] (stored init_locals 10 10 10)
           11 8 11 10 10 10 [254; 10; 10; 10]).
  - repeat constructor. exists 10, 10, 10. repeat split; lia.
  - reflexivity.
  - reflexivity.
  - reflexivity.
  - vm_compute. discriminate.
  - lia.
  - lia.
  - lia.
Defined.

(** ** Deltas are plain differences *)

Lemma wrapped_delta_small p l :
  -2 <= p - l <= 1 -> wrapped_delta p l = p - l.
Proof.
  intros H. unfold wrapped_delta. rewrite Z.mod_small by lia. lia.
Qed.

(** C2, as stated, fails: from (255,10,10) to (0,10,10) the wrapped deltas
    are (+1,0,0), yet the code computes 0 - 255 = -255 and writes the four
    bytes of the literal, not a diff byte. *)
Lemma wrapped_delta_counterexample :
  reaches 2 1 [px 255 10 10] (stored init_locals 255 10 10) /\
  wrapped_delta 0 255 = 1 /\ wrapped_delta 10 10 = 0 /\
  small_delta (0 - 255) (10 - 10) (10 - 10) = false /\
  loop_body 2 1 (stored init_locals 255 10 10) (px 0 10 10) [254; 255; 10; 10] =
    ([254; 255; 10; 10] ++ [254; 0; 10; 10],
     Ok (stored (stored init_locals 255 10 10) 0 10 10)) /\
  opcodes 2 1 [px 255 10 10; px 0 10 10] <>
    [254; 255; 10; 10] ++ [diff_byte 1 0 0].
Proof. repeat split. vm_compute. discriminate. Qed.

(** C2, amended: in the small-delta test the deltas between the incoming
    pixel and [last] are plain integer differences, without 8-bit wrap-around.
    A pixel that reaches the test (no run continuation, index miss) gets the
    diff byte exactly when the three integer differences lie in [-2, 1], and
    the literal otherwise; for a channel pair such as last = 255 and P = 0
    the delta is -255 and the pixel does not qualify for the diff opcode;
    deltas whose wrapped signed value lies outside [-2, 1] are excluded from
    the diff opcode, not wrapped into range. *)
Theorem delta_not_wrapped (width height : Z) (seen : list pyseq) (st : locals)
    (r g b l0 l1 l2 : Z) (fo : list Z) :
  Forall rgb_pixel seen -> reaches width height seen st ->
  items (last st) = [l0; l1; l2] ->
  0 <= r < 256 -> 0 <= g < 256 -> 0 <= b < 256 ->
  run_test st (px r g b) = Ok false ->
  index st !! Z.to_nat (hash_of r g b) <> Some (px r g b) ->
  let in_range d := -2 <= d <= 1 in
  let diff := fo ++ flushed (run_counter st) ++ [diff_byte (r - l0) (g - l1) (b - l2)] in
  let literal := fo ++ flushed (run_counter st) ++ [254; r; g; b] in
  (in_range (r - l0) /\ in_range (g - l1) /\ in_range (b - l2) ->
   fst (loop_body width height st (px r g b) fo) = diff) /\
  (~ (in_range (r - l0) /\ in_range (g - l1) /\ in_range (b - l2)) ->
   fst (loop_body width height st (px r g b) fo) = literal) /\
  (l0 = 255 /\ r = 0 \/ l1 = 255 /\ g = 0 \/ l2 = 255 /\ b = 0 ->
   fst (loop_body width height st (px r g b) fo) = literal) /\
  (~ (in_range (wrapped_delta r l0) /\ in_range (wrapped_delta g l1) /\
      in_range (wrapped_delta b l2)) ->
   fst (loop_body width height st (px r g b) fo) = literal).
Proof.
  intros Hall Hreach Hlast Hr Hg Hb Hrun Hmiss in_range diff literal.
  pose proof (reaches_inv _ _ _ _ Hall Hreach) as Hinv.
  pose proof (step_miss width height seen st r g b l0 l1 l2 fo
                Hinv Hlast Hr Hg Hb Hrun Hmiss) as Hstep.
  assert (~ (in_range (r - l0) /\ in_range (g - l1) /\ in_range (b - l2)) ->
          fst (loop_body width height st (px r g b) fo) = literal) as Hlit.
  { intros Hout. rewrite Hstep.
    destruct (small_delta (r - l0) (g - l1) (b - l2)) eqn:Hd; [|reflexivity].
    apply small_delta_spec in Hd. contradiction. }
  split; [|split; [exact Hlit|split]].
  - intros Hin. rewrite Hstep.
    apply small_delta_spec in Hin. by rewrite Hin.
  - intros Hpair. apply Hlit. unfold in_range. lia.
  - intros Hout. apply Hlit. intros (H0 & H1 & H2). apply Hout.
    unfold in_range in *. rewrite !wrapped_delta_small by done. done.
Qed.

Lemma delta_not_wrapped_witness :
  let st := stored init_locals 255 10 10 in
  let fo := [254; 255; 10; 10] in
  let in_range d := -2 <= d <= 1 in
  let diff := fo ++ flushed (run_counter st) ++ [diff_byte (0 - 255) (10 - 10) (10 - 10)] in
  let literal := fo ++ flushed (run_counter st) ++ [254; 0; 10; 10] in
  (in_range (0 - 255) /\ in_range (10 - 10) /\ in_range (10 - 10) ->
   fst (loop_body 2 1 st (px 0 10 10) fo) = diff) /\
  (~ (in_range (0 - 255) /\ in_range (10 - 10) /\ in_range (10 - 10)) ->
   fst (loop_body 2 1 st (px 0 10 10) fo) = literal) /\
  (255 = 255 /\ 0 = 0 \/ 10 = 255 /\ 10 = 0 \/ 10 = 255 /\ 10 = 0 ->
   fst (loop_body 2 1 st (px 0 10 10) fo) = literal) /\
  (~ (in_range (wrapped_delta 0 255) /\ in_range (wrapped_delta 10 10) /\
      in_range (wrapped_delta 10 10)) ->
   fst (loop_body 2 1 st (px 0 10 10) fo) = literal).
Proof.
  apply (delta_not_wrapped 2 1 [px 255 10 10] (stored init_locals 255 10 10)
           0 10 10 255 10 10 [254; 255; 10; 10]).
  - repeat constructor. exists 255, 10, 10. repeat split; lia.
  - reflexivity.
  - reflexivity.
  - lia.
  - lia.
  - lia.
  - reflexivity.
  - vm_compute. discriminate.
Defined.

(** ** A black pixel and the untouched slot 53 *)

(** C4, as stated, fails: after the pixel (1,0,0) slot 53 still holds the
    initial [[0, 0, 0]], [last] is (1,0,0), and the pixel (0,0,0) hashes to
    53; the comparison of the tuple with the list is false, and the byte
    written is the diff byte 90, not the index byte 53. *)
Lemma zero_pixel_counterexample :
  reaches 2 1 [px 1 0 0] (stored init_locals 1 0 0) /\
  index (stored init_locals 1 0 0) !! 53%nat = Some (PyList [0; 0; 0]) /\
  last (stored init_locals 1 0 0) = px 1 0 0 /\
  index_hash (px 0 0 0) = Ok 53 /\
  py_eq (px 0 0 0) (PyList [0; 0; 0]) = false /\
  loop_body 2 1 (stored init_locals 1 0 0) (px 0 0 0) [122] =
    ([122] ++ [90], Ok (stored (stored init_locals 1 0 0) 0 0 0)) /\
  opcodes 2 1 [px 1 0 0; px 0 0 0] <> [122] ++ [53].
Proof. repeat split. vm_compute. discriminate. Qed.

(** C4, amended: for an incoming pixel P = (0,0,0) that differs from [last]
    and whose hash slot 53 has never been stored to, the index lookup returns
    the initial value, the list [[0, 0, 0]], which Python's [==] does not
    take as equal to the tuple P; so the encoder does not write the index
    byte 53 for P: it stores P in slot 53 and writes the diff byte or the
    literal for it. *)
Theorem zero_pixel_not_indexed (width height : Z) (seen : list pyseq)
    (st : locals) (l0 l1 l2 : Z) (fo : list Z) :
  Forall rgb_pixel seen -> reaches width height seen st ->
  items (last st) = [l0; l1; l2] ->
  [l0; l1; l2] <> [0; 0; 0] ->
  index st !! 53%nat = Some (PyList [0; 0; 0]) ->
  index_hash (px 0 0 0) = Ok 53 /\
  py_eq (px 0 0 0) (PyList [0; 0; 0]) = false /\
  (exists own,
     fst (loop_body width height st (px 0 0 0) fo)
       = fo ++ flushed (run_counter st) ++ own /\
     (own = [diff_byte (0 - l0) (0 - l1) (0 - l2)] \/ own = [254; 0; 0; 0]) /\
     own <> [53]) /\
  (forall st', snd (loop_body width height st (px 0 0 0) fo) = Ok st' ->
     index st' !! 53%nat = Some (px 0 0 0)).
Proof.
  intros Hall Hreach Hlast Hdiffer Hslot.
  pose proof (reaches_inv _ _ _ _ Hall Hreach) as Hinv.
  assert (run_test st (px 0 0 0) = Ok false) as Hrun.
  { rewrite (run_test_px st 0 0 0 l0 l1 l2 Hlast).
    destruct (Z.eqb_spec l0 0) as [-> | ?]; [|reflexivity].
    destruct (Z.eqb_spec l1 0) as [-> | ?]; [|reflexivity].
    destruct (Z.eqb_spec l2 0) as [-> | ?]; [|reflexivity].
    contradiction. }
  assert (index st !! Z.to_nat (hash_of 0 0 0) <> Some (px 0 0 0)) as Hmiss.
  { change (Z.to_nat (hash_of 0 0 0)) with 53%nat. rewrite Hslot. discriminate. }
  pose proof (step_miss width height seen st 0 0 0 l0 l1 l2 fo Hinv Hlast
                ltac:(lia) ltac:(lia) ltac:(lia) Hrun Hmiss) as Hstep.
  split; [reflexivity|]. split; [reflexivity|].
  assert (index (stored st 0 0 0) !! 53%nat = Some (px 0 0 0)) as Hstored.
  { unfold stored. cbn [index]. change (Z.to_nat (hash_of 0 0 0)) with 53%nat.
    apply list_lookup_insert_eq. rewrite (inv_len _ _ Hinv). lia. }
  rewrite Hstep.
  destruct (small_delta (0 - l0) (0 - l1) (0 - l2)) eqn:Hd; cbn [fst snd].
  - split.
    + eexists. split; [reflexivity|]. split; [by left|].
      apply small_delta_spec in Hd. destruct Hd as (H0 & H1 & H2).
      rewrite diff_byte_add by done.
      intros [= H]. lia.
    + by intros st' [= <-].
  - split.
    + eexists. split; [reflexivity|]. split; [by right | discriminate].
    + destruct (width * height =? 0); [discriminate|]. by intros st' [= <-].
Qed.

Lemma zero_pixel_not_indexed_witness :
  index_hash (px 0 0 0) = Ok 53 /\
  py_eq (px 0 0 0) (PyList [0; 0; 0]) = false /\
  (exists own,
     fst (loop_body 2 1 (stored init_locals 1 0 0) (px 0 0 0) [122])
       = [122] ++ flushed (run_counter (stored init_locals 1 0 0)) ++ own /\
     (own = [diff_byte (0 - 1) (0 - 0) (0 - 0)] \/ own = [254; 0; 0; 0]) /\
     own <> [53]) /\
  (forall st',
     snd (loop_body 2 1 (stored init_locals 1 0 0) (px 0 0 0) [122]) = Ok st' ->
     index st' !! 53%nat = Some (px 0 0 0)).
Proof.
  apply (zero_pixel_not_indexed 2 1 [px 1 0 0] (stored init_locals 1 0 0) 1 0 0 [122]).
  - repeat constructor. exists 1, 0, 0. repeat split; lia.
  - reflexivity.
  - reflexivity.
  - discriminate.
  - reflexivity.
Defined.

(** ** The colour index *)

Lemma opcodes_snoc width height seen st p :
  reaches width height seen st ->
  for_each (loop_body width height) (seen ++ [p]) init_locals [] =
  loop_body width height st p (opcodes width height seen).
Proof.
  unfold reaches. intros Hreach. rewrite opcodes_reaches_snoc, Hreach.
  by destruct (loop_body width height st p (opcodes width height seen))
    as [fo' [st'|e]].
Qed.

Lemma opcodes_prefix width height xs ys :
  exists rest, opcodes width height (xs ++ ys) = opcodes width height xs ++ rest.
Proof.
  unfold opcodes. rewrite for_each_app. unfold io_bind.
  destruct (for_each (loop_body width height) xs init_locals []) as [fo [st|e]];
    cbn [fst].
  - rewrite (appends_for_each width height ys st fo). cbn [fst]. by eexists.
  - exists []. by rewrite app_nil_r.
Qed.

(** C5: after any number of pixels, every slot [k] of the colour index holds
    the channel values of the most recent pixel whose hash is [k], or the
    initial [[0, 0, 0]] if no pixel with that hash has been seen; and when
    the loop body has written the diff byte or the literal for a pixel, that
    pixel sits in its hash slot, the store of the index miss having come
    first. *)
Theorem index_table_invariant (width height : Z) (seen : list pyseq) (st : locals) :
  Forall rgb_pixel seen -> reaches width height seen st ->
  (forall k, 0 <= k < 64 ->
     match most_recent k seen with
     | Some p => items <$> index st !! Z.to_nat k = Some (items p)
     | None => index st !! Z.to_nat k = Some (PyList [0; 0; 0])
     end) /\
  (forall r g b l0 l1 l2 fo st',
     0 <= r < 256 -> 0 <= g < 256 -> 0 <= b < 256 ->
     items (last st) = [l0; l1; l2] ->
     loop_body width height st (px r g b) fo
       = (fo ++ flushed (run_counter st) ++ [diff_byte (r - l0) (g - l1) (b - l2)], Ok st')
     \/ loop_body width height st (px r g b) fo
       = (fo ++ flushed (run_counter st) ++ [254; r; g; b], Ok st') ->
     index st' !! Z.to_nat (hash_of r g b) = Some (px r g b)).
Proof.
  intros Hall Hreach.
  pose proof (reaches_inv _ _ _ _ Hall Hreach) as Hinv.
  split; [exact (inv_table _ _ Hinv)|].
  intros r g b l0 l1 l2 fo st' Hr Hg Hb Hlast Hwritten.
  assert (exists own, loop_body width height st (px r g b) fo
                      = (fo ++ flushed (run_counter st) ++ own, Ok st') /\
                      own <> []) as (own & Hstep & Hown).
  { destruct Hwritten as [H | H]; eexists; (split; [exact H | discriminate]). }
  clear Hwritten.
  assert (inv (seen ++ [px r g b]) st') as Hinv'.
  { eapply inv_step; [exact Hinv | by exists r, g, b | exact Hstep]. }
  destruct (inv_last _ _ Hinv')
    as [(Hz & _ & _ & Hn) | (r' & g' & b' & pre & Hl & Hseen & Hs)].
  - (* [last] is still the initial list: the pixel continued the run and
       nothing was written *)
    exfalso.
    destruct (step_cases width height seen st r g b fo Hinv Hr Hg Hb)
      as (m0 & m1 & m2 & _ & Hcases).
    destruct Hcases as
      [(_ & Heq) | [(_ & _ & Heq) | [(_ & _ & _ & Heq) | (_ & _ & _ & Heq)]]];
      rewrite Heq in Hstep.
    + injection Hstep as Hfo _.
      rewrite <- (app_nil_r fo) in Hfo at 1. apply app_inv_head in Hfo.
      symmetry in Hfo. apply app_eq_nil in Hfo as [_ ?]. contradiction.
    + injection Hstep as _ <-. discriminate Hz.
    + injection Hstep as _ <-. discriminate Hz.
    + destruct (width * height =? 0); [discriminate|].
      injection Hstep as _ <-. discriminate Hz.
  - apply app_inj_tail in Hseen as [_ [= <- <- <-]]. exact Hs.
Qed.

Lemma index_table_invariant_witness :
  (forall k, 0 <= k < 64 ->
     match most_recent k [px 10 10 10] with
     | Some p => items <$> index (stored init_locals 10 10 10) !! Z.to_nat k
                 = Some (items p)
     | None => index (stored init_locals 10 10 10) !! Z.to_nat k
               = Some (PyList [0; 0; 0])
     end) /\
  (forall r g b l0 l1 l2 fo st',
     0 <= r < 256 -> 0 <= g < 256 -> 0 <= b < 256 ->
     items (last (stored init_locals 10 10 10)) = [l0; l1; l2] ->
     loop_body 2 1 (stored init_locals 10 10 10) (px r g b) fo
       = (fo ++ flushed (run_counter (stored init_locals 10 10 10))
             ++ [diff_byte (r - l0) (g - l1) (b - l2)], Ok st')
     \/ loop_body 2 1 (stored init_locals 10 10 10) (px r g b) fo
       = (fo ++ flushed (run_counter (stored init_locals 10 10 10))
             ++ [254; r; g; b], Ok st') ->
     index st' !! Z.to_nat (hash_of r g b) = Some (px r g b)).
Proof.
  apply (index_table_invariant 2 1 [px 10 10 10] (stored init_locals 10 10 10)).
  - repeat constructor. exists 10, 10, 10. repeat split; lia.
  - reflexivity.
Defined.

(** ** A, B, A *)

(** C9, as stated, fails when A is black and opens the image: the first A
    only continues the run against the initial [last], so slot 53 keeps the
    list [[0, 0, 0]]; B = (100,100,100) hashes to 17; the second A misses the
    index and is written as the literal 254 0 0 0. *)
Lemma index_reuse_counterexample :
  px 0 0 0 <> px 100 100 100 /\
  index_hash (px 0 0 0) = Ok 53 /\ index_hash (px 100 100 100) = Ok 17 /\
  opcodes 3 1 [px 0 0 0; px 100 100 100] = [192; 254; 100; 100; 100] /\
  opcodes 3 1 [px 0 0 0; px 100 100 100; px 0 0 0] =
    [192; 254; 100; 100; 100] ++ [254; 0; 0; 0] /\
  opcodes 3 1 [px 0 0 0; px 100 100 100; px 0 0 0] <>
    [192; 254; 100; 100; 100] ++ [53].
Proof. repeat split; vm_compute; discriminate. Qed.

Lemma run_test_differs st r g b l0 l1 l2 :
  items (last st) = [l0; l1; l2] -> [l0; l1; l2] <> [r; g; b] ->
  run_test st (px r g b) = Ok false.
Proof.
  intros Hlast Hne. rewrite (run_test_px st r g b l0 l1 l2 Hlast).
  destruct (Z.eqb_spec l0 r) as [-> | ?]; [|reflexivity].
  destruct (Z.eqb_spec l1 g) as [-> | ?]; [|reflexivity].
  destruct (Z.eqb_spec l2 b) as [-> | ?]; [|reflexivity].
  contradiction.
Qed.

(** Once a pixel has been through the loop, [last] is that pixel and the
    pixel sits in its slot, unless all that was seen is an opening run of
    black. *)
Lemma after_pixel width height pre r g b st :
  Forall rgb_pixel (pre ++ [px r g b]) ->
  reaches width height (pre ++ [px r g b]) st ->
  ~ (Forall (eq (px 0 0 0)) (pre ++ [px r g b]) /\ (length pre < 62)%nat) ->
  last st = px r g b /\
  index st !! Z.to_nat (hash_of r g b) = Some (px r g b).
Proof.
  intros Hall Hreach Hopen.
  pose proof (reaches_inv _ _ _ _ Hall Hreach) as Hinv.
  destruct (inv_last _ _ Hinv)
    as [(_ & _ & Hblack & Hn) | (r' & g' & b' & pre' & Hl & Hseen & Hs)].
  - exfalso. apply Hopen. split; [exact Hblack|].
    pose proof (inv_rc _ _ Hinv) as Hrc. rewrite Hn, length_app in Hrc.
    cbn [length] in Hrc. lia.
  - apply app_inj_tail in Hseen as [_ [= <- <- <-]]. by split.
Qed.

(** A pixel B of another colour and another hash leaves the slot of [last]
    alone and becomes [last] itself. *)
Lemma step_other_colour width height seen st rA gA bA rB gB bB fo :
  inv seen st -> width * height <> 0 ->
  last st = px rA gA bA ->
  index st !! Z.to_nat (hash_of rA gA bA) = Some (px rA gA bA) ->
  0 <= rB < 256 -> 0 <= gB < 256 -> 0 <= bB < 256 ->
  px rA gA bA <> px rB gB bB ->
  hash_of rA gA bA <> hash_of rB gB bB ->
  exists fo' st',
    loop_body width height st (px rB gB bB) fo = (fo', Ok st') /\
    last st' = px rB gB bB /\ run_counter st' = 0 /\
    index st' !! Z.to_nat (hash_of rA gA bA) = Some (px rA gA bA).
Proof.
  intros Hinv Hsize Hlast Hslot Hr Hg Hb Hne Hhash.
  pose proof (hash_of_range rA gA bA) as HhA.
  pose proof (hash_of_range rB gB bB) as HhB.
  destruct (step_cases width height seen st rB gB bB fo Hinv Hr Hg Hb)
    as (l0 & l1 & l2 & Hitems & Hcases).
  rewrite Hlast in Hitems. injection Hitems as <- <- <-.
  assert (Z.to_nat (hash_of rB gB bB) <> Z.to_nat (hash_of rA gA bA)) by lia.
  apply Z.eqb_neq in Hsize.
  destruct Hcases as
    [(Hrun & _) | [(_ & _ & Heq) | [(_ & _ & _ & Heq) | (_ & _ & _ & Heq)]]];
    try rewrite Hsize in Heq.
  - apply (run_test_true st rB gB bB rA gA bA) in Hrun as (-> & -> & -> & _);
      [contradiction | by rewrite Hlast].
  - eexists _, _. split; [exact Heq|]. by repeat split.
  - eexists _, _. split; [exact Heq|]. repeat split.
    cbn [index]. by rewrite list_lookup_insert_ne.
  - eexists _, _. split; [exact Heq|]. repeat split.
    cbn [index]. by rewrite list_lookup_insert_ne.
Qed.

(** C9, amended: in a sequence of RGB pixels that contains A, B, A in
    succession, with B different from A and hash(B) different from hash(A),
    the second A is written as the single byte hash(A), the index opcode, and
    not as a literal; unless A is (0,0,0) and the first A ends an opening
    stretch of at most 62 pixels that are all (0,0,0). *)
Theorem index_reuse (width height : Z) (pre post : list pyseq)
    (rA gA bA rB gB bB : Z) :
  Forall rgb_pixel pre ->
  rgb_pixel (px rA gA bA) -> rgb_pixel (px rB gB bB) ->
  width * height <> 0 ->
  px rA gA bA <> px rB gB bB ->
  hash_of rA gA bA <> hash_of rB gB bB ->
  ~ (Forall (eq (px 0 0 0)) (pre ++ [px rA gA bA]) /\ (length pre < 62)%nat) ->
  0 <= hash_of rA gA bA < 64 /\
  opcodes width height (pre ++ [px rA gA bA; px rB gB bB; px rA gA bA])
    = opcodes width height (pre ++ [px rA gA bA; px rB gB bB])
      ++ [hash_of rA gA bA] /\
  exists rest,
    opcodes width height (pre ++ [px rA gA bA; px rB gB bB; px rA gA bA] ++ post)
    = opcodes width height (pre ++ [px rA gA bA; px rB gB bB])
      ++ [hash_of rA gA bA] ++ rest.
Proof.
  intros Hpre HA HB Hsize Hne Hhash Hopen.
  assert (Forall rgb_pixel (pre ++ [px rA gA bA])) as HallA
    by (apply Forall_app; split; [done | by constructor]).
  (* after the first A *)
  destruct (loop_total width height _ HallA Hsize) as (st1 & Hreach1).
  destruct (after_pixel width height pre rA gA bA st1 HallA Hreach1 Hopen)
    as (Hlast1 & Hslot1).
  pose proof (reaches_inv _ _ _ _ HallA Hreach1) as Hinv1.
  (* after B *)
  destruct HB as (r & g & b & [= <- <- <-] & Hr & Hg & Hb).
  destruct (step_other_colour width height _ st1 rA gA bA rB gB bB
              (opcodes width height (pre ++ [px rA gA bA]))
              Hinv1 Hsize Hlast1 Hslot1 Hr Hg Hb Hne Hhash)
    as (fo2 & st2 & HstepB & Hlast2 & Hrc2 & Hslot2).
  pose proof (opcodes_snoc width height _ st1 (px rB gB bB) Hreach1) as HB.
  rewrite HstepB in HB.
  assert (reaches width height ((pre ++ [px rA gA bA]) ++ [px rB gB bB]) st2)
    as Hreach2 by (unfold reaches; by rewrite HB).
  assert (opcodes width height ((pre ++ [px rA gA bA]) ++ [px rB gB bB]) = fo2)
    as Hops2 by (unfold opcodes; by rewrite HB).
  (* the second A *)
  assert (run_test st2 (px rA gA bA) = Ok false) as Hrun2.
  { apply (run_test_differs st2 rA gA bA rB gB bB); [by rewrite Hlast2|].
    intros [= -> -> ->]. contradiction. }
  pose proof (opcodes_snoc width height _ st2 (px rA gA bA) Hreach2) as HA2.
  rewrite (step_index width height st2 _ rA gA bA ltac:(lia) Hrun2 Hslot2) in HA2.
  rewrite Hrc2 in HA2. cbn [flushed Z.ltb Z.compare app] in HA2.
  assert (opcodes width height (pre ++ [px rA gA bA; px rB gB bB; px rA gA bA])
          = opcodes width height (pre ++ [px rA gA bA; px rB gB bB])
            ++ [hash_of rA gA bA]) as Hops.
  { replace (pre ++ [px rA gA bA; px rB gB bB; px rA gA bA])
      with (((pre ++ [px rA gA bA]) ++ [px rB gB bB]) ++ [px rA gA bA])
      by (by rewrite <- !app_assoc).
    replace (pre ++ [px rA gA bA; px rB gB bB])
      with ((pre ++ [px rA gA bA]) ++ [px rB gB bB])
      by (by rewrite <- !app_assoc).
    unfold opcodes at 1. by rewrite HA2. }
  split; [apply hash_of_range|]. split; [exact Hops|].
  destruct (opcodes_prefix width height
              (pre ++ [px rA gA bA; px rB gB bB; px rA gA bA]) post)
    as (rest & Hrest).
  exists rest. rewrite (app_assoc pre), Hrest, Hops. by rewrite <- app_assoc.
Qed.

Lemma index_reuse_witness :
  0 <= hash_of 10 10 10 < 64 /\
  opcodes 3 1 ([] ++ [px 10 10 10; px 100 100 100; px 10 10 10])
    = opcodes 3 1 ([] ++ [px 10 10 10; px 100 100 100]) ++ [hash_of 10 10 10] /\
  exists rest,
    opcodes 3 1 ([] ++ [px 10 10 10; px 100 100 100; px 10 10 10] ++ [])
    = opcodes 3 1 ([] ++ [px 10 10 10; px 100 100 100])
      ++ [hash_of 10 10 10] ++ rest.
Proof.
  apply (index_reuse 3 1 [] [] 10 10 10 100 100 100).
  - constructor.
  - exists 10, 10, 10. repeat split; lia.
  - exists 100, 100, 100. repeat split; lia.
  - lia.
  - discriminate.
  - vm_compute. discriminate.
  - intros [Hblack _]. inversion Hblack as [|? ? Heq _]. discriminate Heq.
Defined.

(** ** Runs *)

Lemma for_each_app_ok body (xs ys : list pyseq) st fo fo1 st1 :
  for_each body xs st fo = (fo1, Ok st1) ->
  for_each body (xs ++ ys) st fo = for_each body ys st1 fo1.
Proof. intros H. rewrite for_each_app. unfold io_bind. by rewrite H. Qed.

(** [n] more copies of [last] only raise the counter, as long as it stays
    within 62. *)
Lemma run_block width height r g b (n : nat) st fo :
  items (last st) = [r; g; b] ->
  0 <= run_counter st -> run_counter st + Z.of_nat n <= 62 ->
  for_each (loop_body width height) (replicate n (px r g b)) st fo =
  (fo, Ok {| index := index st; last := last st;
             run_counter := run_counter st + Z.of_nat n;
             current := current st + Z.of_nat n |}).
Proof.
  revert st. induction n as [|n IH]; intros st Hlast Hrc Hcap.
  - cbn. rewrite !Z.add_0_r. by destruct st.
  - cbn [replicate for_each]. unfold io_bind.
    assert (run_test st (px r g b) = Ok true) as Hrun.
    { rewrite (run_test_px st r g b r g b Hlast), !Z.eqb_refl.
      destruct (Z.ltb_spec (run_counter st) 62); [reflexivity | lia]. }
    rewrite (step_run width height st fo r g b Hrun).
    rewrite IH; cbn [index last run_counter current]; [|done|lia|lia].
    do 3 f_equal; lia.
Qed.

(** A full run followed by one more copy of the pixel: the run byte for 62,
    then the index byte of the pixel. *)
Lemma full_run_then_index width height r g b st fo :
  last st = px r g b -> run_counter st = 0 ->
  index st !! Z.to_nat (hash_of r g b) = Some (px r g b) ->
  exists st',
    for_each (loop_body width height) (replicate 62 (px r g b) ++ [px r g b]) st fo
      = (fo ++ [run_byte 62; hash_of r g b], Ok st') /\
    last st' = px r g b /\ run_counter st' = 0 /\ index st' = index st.
Proof.
  intros Hlast Hrc Hslot.
  assert (items (last st) = [r; g; b]) as Hitems by (by rewrite Hlast).
  rewrite (for_each_app_ok _ _ _ _ _ _ _
             (run_block width height r g b 62 st fo Hitems ltac:(lia) ltac:(lia))).
  cbn [for_each]. unfold io_bind.
  set (st62 := {| index := index st; last := last st;
                  run_counter := run_counter st + Z.of_nat 62;
                  current := current st + Z.of_nat 62 |}).
  assert (run_test st62 (px r g b) = Ok false) as Hrun.
  { rewrite (run_test_px st62 r g b r g b Hitems), !Z.eqb_refl.
    subst st62. cbn [run_counter]. rewrite Hrc. reflexivity. }
  rewrite (step_index width height st62 fo r g b
             ltac:(subst st62; cbn [run_counter]; lia) Hrun Hslot).
  eexists. split.
  - subst st62. cbn [run_counter]. rewrite Hrc. reflexivity.
  - by repeat split.
Qed.

(** C6, as stated, fails: 200 pixels (10,10,10) give the literal of the first
    pixel and then run bytes for 62 (253) with the index byte 11 of the pixel
    between them; 11 is no run byte. *)
Lemma run_cap_counterexample :
  opcodes 200 1 (replicate 200 (px 10 10 10)) =
    [254; 10; 10; 10] ++ [253; 11; 253; 11; 253; 11] /\
  run_byte 62 = 253 /\
  index_hash (px 10 10 10) = Ok 11 /\
  ~ Forall (fun byte => exists c, 1 <= c <= 62 /\ byte = run_byte c)
      [253; 11; 253; 11; 253; 11].
Proof.
  split; [vm_compute; reflexivity|].
  split; [reflexivity|]. split; [reflexivity|].
  intros Hruns. inversion Hruns as [|? ? _ Htail]; subst.
  inversion Htail as [|? ? (c & Hc & Heq) _]; subst.
  rewrite run_byte_add in Heq by lia. lia.
Qed.

(** The first pixel of an image, when it is not black. *)
Lemma first_pixel width height r g b :
  0 <= r < 256 -> 0 <= g < 256 -> 0 <= b < 256 ->
  width * height <> 0 -> [r; g; b] <> [0; 0; 0] ->
  for_each (loop_body width height) [px r g b] init_locals [] =
  (opcodes width height [px r g b], Ok (stored init_locals r g b)).
Proof.
  intros Hr Hg Hb Hsize Hcolour.
  assert (run_test init_locals (px r g b) = Ok false) as Hrun
    by (apply (run_test_differs init_locals r g b 0 0 0); [reflexivity | congruence]).
  assert (index init_locals !! Z.to_nat (hash_of r g b) <> Some (px r g b)) as Hmiss.
  { cbn [index init_locals]. rewrite lookup_replicate_2; [discriminate|].
    pose proof (hash_of_range r g b). lia. }
  pose proof (step_miss width height [] init_locals r g b 0 0 0 []
                inv_init eq_refl Hr Hg Hb Hrun Hmiss) as Hstep.
  apply Z.eqb_neq in Hsize. rewrite Hsize in Hstep.
  unfold opcodes. cbn [for_each]. unfold io_bind. rewrite Hstep.
  by destruct (small_delta (r - 0) (g - 0) (b - 0)).
Qed.

(** C6, amended: [run_counter] never exceeds 62; a pixel extends the run
    exactly when it equals [last] and [run_counter] is below 62, and then
    nothing is written; otherwise the pending run, if any, is written as the
    one byte [192 | (run_counter - 1)] with [run_counter] in 1..62, the
    counter restarts at 0 and the pixel itself is encoded next.
    Consequently, in a sequence of 200 identical pixels every run byte
    covers 62 pixels, and each of them is followed by the one-byte index
    opcode of the pixel that arrived when the run was full (for black, the
    first time, by the diff byte of three zero deltas), with no literal after
    the first pixel.  What becomes of the pixels after the last full run is
    left open here. *)
Theorem run_length_capped (width height : Z) (seen : list pyseq) (st : locals)
    (r g b : Z) (fo : list Z) :
  Forall rgb_pixel seen -> reaches width height seen st ->
  0 <= r < 256 -> 0 <= g < 256 -> 0 <= b < 256 ->
  0 <= run_counter st <= 62 /\
  (items (last st) = [r; g; b] /\ run_counter st < 62 ->
   loop_body width height st (px r g b) fo =
   (fo, Ok {| index := index st; last := last st;
              run_counter := run_counter st + 1; current := current st + 1 |})) /\
  (~ (items (last st) = [r; g; b] /\ run_counter st < 62) ->
   (exists own l0 l1 l2,
      fst (loop_body width height st (px r g b) fo)
        = fo ++ flushed (run_counter st) ++ own /\
      items (last st) = [l0; l1; l2] /\
      (own = [hash_of r g b] \/
       own = [diff_byte (r - l0) (g - l1) (b - l2)] \/
       own = [254; r; g; b])) /\
   (forall st', snd (loop_body width height st (px r g b) fo) = Ok st' ->
                run_counter st' = 0)) /\
  (run_counter st = 0 /\ flushed (run_counter st) = [] \/
   1 <= run_counter st <= 62 /\
   flushed (run_counter st) = [Z.lor 192 (run_counter st - 1)]) /\
  (width * height <> 0 -> [r; g; b] <> [0; 0; 0] ->
   exists rest,
     opcodes width height (replicate 200 (px r g b)) =
     opcodes width height [px r g b]
     ++ [run_byte 62; hash_of r g b; run_byte 62; hash_of r g b;
         run_byte 62; hash_of r g b]
     ++ rest) /\
  (exists rest,
     opcodes width height (replicate 200 (px 0 0 0)) =
     [run_byte 62; diff_byte 0 0 0; run_byte 62; 53; run_byte 62; 53] ++ rest).
Proof.
  intros Hall Hreach Hr Hg Hb.
  pose proof (reaches_inv _ _ _ _ Hall Hreach) as Hinv.
  pose proof (inv_rc _ _ Hinv) as Hrc.
  destruct (step_cases width height seen st r g b fo Hinv Hr Hg Hb)
    as (l0 & l1 & l2 & Hlast & Hcases).
  split; [exact Hrc|]. split; [|split; [|split; [|split]]].
  - (* the run goes on *)
    intros (Hsame & Hlt). apply step_run.
    rewrite (run_test_px st r g b r g b Hsame), !Z.eqb_refl.
    destruct (Z.ltb_spec (run_counter st) 62); [reflexivity | lia].
  - (* the run ends *)
    intros Hends.
    destruct Hcases as
      [(Hrun & _) | [(_ & _ & Heq) | [(_ & _ & _ & Heq) | (_ & _ & _ & Heq)]]].
    + exfalso. apply Hends.
      destruct (run_test_true st r g b l0 l1 l2 Hlast Hrun) as (-> & -> & -> & Hlt).
      by split.
    + rewrite Heq. cbn [fst snd]. split; [|by intros st' [= <-]].
      eexists _, l0, l1, l2. split; [reflexivity|]. split; [exact Hlast|]. by left.
    + rewrite Heq. cbn [fst snd]. split; [|by intros st' [= <-]].
      eexists _, l0, l1, l2. split; [reflexivity|]. split; [exact Hlast|].
      right. by left.
    + rewrite Heq. cbn [fst snd]. split.
      * eexists _, l0, l1, l2. split; [reflexivity|]. split; [exact Hlast|].
        right. by right.
      * destruct (width * height =? 0); [discriminate|]. by intros st' [= <-].
  - (* the byte of a run *)
    unfold flushed, run_byte.
    destruct (Z.ltb_spec 0 (run_counter st)); [right | left]; split;
      (reflexivity || lia).
  - (* 200 equal pixels, not black *)
    intros Hsize Hcolour.
    pose proof (first_pixel width height r g b Hr Hg Hb Hsize Hcolour) as H0.
    assert (index (stored init_locals r g b) !! Z.to_nat (hash_of r g b)
            = Some (px r g b)) as Hslot0.
    { cbn [stored index init_locals]. apply list_lookup_insert_eq.
      rewrite length_replicate. pose proof (hash_of_range r g b). lia. }
    destruct (full_run_then_index width height r g b (stored init_locals r g b)
                (opcodes width height [px r g b]) eq_refl eq_refl Hslot0)
      as (st1 & H1 & Hlast1 & Hrc1 & Hidx1).
    rewrite <- Hidx1 in Hslot0.
    destruct (full_run_then_index width height r g b st1
                (opcodes width height [px r g b] ++ [run_byte 62; hash_of r g b])
                Hlast1 Hrc1 Hslot0)
      as (st2 & H2 & Hlast2 & Hrc2 & Hidx2).
    rewrite <- Hidx2 in Hslot0.
    destruct (full_run_then_index width height r g b st2
                ((opcodes width height [px r g b] ++ [run_byte 62; hash_of r g b])
                 ++ [run_byte 62; hash_of r g b])
                Hlast2 Hrc2 Hslot0)
      as (st3 & H3 & _).
    exists (fst (for_each (loop_body width height) (replicate 10 (px r g b)) st3 [])).
    change (replicate 200 (px r g b))
      with ([px r g b]
            ++ (replicate 62 (px r g b) ++ [px r g b])
            ++ (replicate 62 (px r g b) ++ [px r g b])
            ++ (replicate 62 (px r g b) ++ [px r g b])
            ++ replicate 10 (px r g b)).
    unfold opcodes at 1.
    rewrite (for_each_app_ok _ _ _ _ _ _ _ H0).
    rewrite (for_each_app_ok _ _ _ _ _ _ _ H1).
    rewrite (for_each_app_ok _ _ _ _ _ _ _ H2).
    rewrite (for_each_app_ok _ _ _ _ _ _ _ H3).
    rewrite appends_for_each. cbn [fst].
    by rewrite <- !app_assoc.
  - (* 200 black pixels *)
    exists []. vm_compute. reflexivity.
Qed.

Lemma run_length_capped_witness :
  0 <= run_counter init_locals <= 62 /\
  (exists rest,
     opcodes 200 1 (replicate 200 (px 10 10 10)) =
     opcodes 200 1 [px 10 10 10]
     ++ [run_byte 62; hash_of 10 10 10; run_byte 62; hash_of 10 10 10;
         run_byte 62; hash_of 10 10 10]
     ++ rest).
Proof.
  destruct (run_length_capped 200 1 [] init_locals 10 10 10 [])
    as (Hcap & _ & _ & _ & Hrun & _).
  - constructor.
  - reflexivity.
  - lia.
  - lia.
  - lia.
  - split; [exact Hcap|]. apply Hrun; [lia | discriminate].
Defined.

(** * Pixels with any number of bands *)

(** ** One loop iteration, in general *)

Lemma index_hash_items p r g b tl :
  items p = r :: g :: b :: tl -> index_hash p = Ok (hash_of r g b).
Proof. intros Hp. unfold index_hash, subscript. rewrite Hp. reflexivity. Qed.

Lemma index_hash_short p :
  (length (items p) < 3)%nat -> index_hash p = Raise IndexError.
Proof.
  intros Hlen. unfold index_hash, subscript.
  destruct (items p) as [|c0 [|c1 [|c2 tl]]]; cbn in *; (reflexivity || lia).
Qed.

Lemma run_test_items st p r g b tl l0 l1 l2 ltl :
  items p = r :: g :: b :: tl ->
  items (last st) = l0 :: l1 :: l2 :: ltl ->
  run_test st p =
  Ok ((l0 =? r) && ((l1 =? g) && ((l2 =? b) && (run_counter st <? 62)))).
Proof.
  intros Hp Hlast. unfold run_test, chan_eq, subscript. rewrite Hp, Hlast. cbn.
  destruct (l0 =? r), (l1 =? g), (l2 =? b); reflexivity.
Qed.

Lemma flush_run_eq rc fo :
  0 <= rc <= 62 -> flush_run rc fo = (fo ++ flushed rc, Ok 0).
Proof.
  intros Hrc. unfold flush_run, flushed.
  destruct (Z.ltb_spec 0 rc).
  - unfold io_bind, eval. rewrite to_bytes_1; [reflexivity|].
    rewrite run_byte_add; lia.
  - assert (rc = 0) as -> by lia. unfold io_ret. by rewrite app_nil_r.
Qed.

(** The loop body as one equation. *)
Lemma loop_body_eq width height st p fo r g b tl l0 l1 l2 ltl slot :
  items p = r :: g :: b :: tl ->
  items (last st) = l0 :: l1 :: l2 :: ltl ->
  0 <= run_counter st <= 62 ->
  index st !! Z.to_nat (hash_of r g b) = Some slot ->
  loop_body width height st p fo =
  if (l0 =? r) && ((l1 =? g) && ((l2 =? b) && (run_counter st <? 62))) then
    (fo, Ok {| index := index st; last := last st;
               run_counter := run_counter st + 1; current := current st + 1 |})
  else if py_eq p slot then
    (fo ++ flushed (run_counter st) ++ [hash_of r g b],
     Ok {| index := index st; last := p;
           run_counter := 0; current := current st + 1 |})
  else if small_delta (r - l0) (g - l1) (b - l2) then
    (fo ++ flushed (run_counter st) ++ [diff_byte (r - l0) (g - l1) (b - l2)],
     Ok {| index := <[Z.to_nat (hash_of r g b) := p]> (index st); last := p;
           run_counter := 0; current := current st + 1 |})
  else
    literal_path width height r g b
      {| index := <[Z.to_nat (hash_of r g b) := p]> (index st); last := p;
         run_counter := 0; current := current st + 1 |}
      (fo ++ flushed (run_counter st)).
Proof.
  intros Hp Hlast Hrc Hslot. unfold loop_body, io_bind, eval.
  rewrite (index_hash_items p r g b tl Hp).
  rewrite (run_test_items st p r g b tl l0 l1 l2 ltl Hp Hlast).
  destruct ((l0 =? r) && ((l1 =? g) && ((l2 =? b) && (run_counter st <? 62))));
    [reflexivity|].
  rewrite (flush_run_eq _ _ Hrc). unfold slot_at. rewrite Hslot.
  destruct (py_eq p slot); cbn [negb].
  - rewrite to_bytes_1 by (pose proof (hash_of_range r g b); lia).
    unfold fo_write, io_ret. by rewrite <- app_assoc.
  - unfold subscript. rewrite Hp, Hlast. cbn [lookup list_lookup rbind].
    destruct (small_delta (r - l0) (g - l1) (b - l2)) eqn:Hd.
    + apply small_delta_spec in Hd. destruct Hd as (H0 & H1 & H2).
      rewrite to_bytes_1 by (rewrite diff_byte_add; lia).
      unfold fo_write, io_ret. by rewrite <- app_assoc.
    + unfold literal_path. rewrite (to_bytes_1 254) by lia.
      unfold fo_write, io_ret, io_raise.
      destruct (to_bytes r 1) as [b0|e0]; [|reflexivity].
      destruct (to_bytes g 1) as [b1|e1]; [|by rewrite <- !app_assoc].
      destruct (to_bytes b 1) as [b2|e2]; [|by rewrite <- !app_assoc].
      rewrite <- !app_assoc. by destruct (width * height =? 0).
Qed.

(** ** When the loop raises *)

Lemma to_bytes_1_cases c :
  (0 <= c < 256 /\ to_bytes c 1 = Ok [c]) \/
  (~ (0 <= c < 256) /\ to_bytes c 1 = Raise OverflowError).
Proof.
  destruct (decide (0 <= c < 256)) as [Hc | Hc].
  - left. split; [exact Hc | by apply to_bytes_1].
  - right. split; [exact Hc|]. apply to_bytes_overflow.
    change (256 ^ Z.of_nat 1) with 256. lia.
Qed.

Lemma wf_init : wf_locals init_locals.
Proof.
  split; [reflexivity|]. split; [cbn; lia|]. by exists 0, 0, 0, [].
Qed.

Lemma wf_slot st r g b :
  wf_locals st -> exists slot, index st !! Z.to_nat (hash_of r g b) = Some slot.
Proof.
  intros (Hlen & _). apply lookup_lt_is_Some. rewrite Hlen.
  pose proof (hash_of_range r g b). lia.
Qed.

(** One iteration keeps the shape of the state, or raises for one of the
    three reasons. *)
Lemma step_wf_or_fail width height st p fo :
  wf_locals st ->
  match snd (loop_body width height st p fo) with
  | Ok st' => wf_locals st'
  | Raise e => failure_cause width height p e
  end.
Proof.
  intros Hwf.
  destruct (items p) as [|r [|g [|b tl]]] eqn:Hp.
  1-3: unfold loop_body, io_bind, eval;
       rewrite index_hash_short by (rewrite Hp; cbn; lia);
       left; split; [reflexivity | rewrite Hp; cbn; lia].
  destruct (wf_slot st r g b Hwf) as (slot & Hslot).
  destruct Hwf as (Hlen & Hrc & l0 & l1 & l2 & ltl & Hlast).
  rewrite (loop_body_eq width height st p fo r g b tl l0 l1 l2 ltl slot
             Hp Hlast Hrc Hslot).
  destruct ((l0 =? r) && ((l1 =? g) && ((l2 =? b) && (run_counter st <? 62))))
    eqn:Hrun.
  { rewrite !andb_true_iff, Z.ltb_lt in Hrun. cbn [snd].
    split; [exact Hlen|]. split; [cbn; lia|]. cbn. eauto. }
  assert (wf_locals {| index := <[Z.to_nat (hash_of r g b) := p]> (index st);
                       last := p; run_counter := 0;
                       current := current st + 1 |}) as Hwf'.
  { split; [cbn; by rewrite length_insert|]. split; [cbn; lia|]. cbn. eauto. }
  destruct (py_eq p slot).
  { cbn [snd]. split; [exact Hlen|]. split; [cbn; lia|]. cbn. eauto. }
  destruct (small_delta (r - l0) (g - l1) (b - l2)); [exact Hwf'|].
  unfold literal_path.
  assert (forall c, In c [r; g; b] ->
            failure_cause width height p OverflowError \/ 0 <= c < 256) as Hc.
  { intros c Hin. destruct (decide (0 <= c < 256)); [by right|].
    left. right. left. split; [reflexivity|]. exists c. by rewrite Hp. }
  destruct (to_bytes_1_cases r) as [(_ & ->) | (Hr & ->)]; cbn [snd].
  2:{ destruct (Hc r) as [? | ?]; [cbn; tauto | done | contradiction]. }
  destruct (to_bytes_1_cases g) as [(_ & ->) | (Hg & ->)]; cbn [snd].
  2:{ destruct (Hc g) as [? | ?]; [cbn; tauto | done | contradiction]. }
  destruct (to_bytes_1_cases b) as [(_ & ->) | (Hb & ->)]; cbn [snd].
  2:{ destruct (Hc b) as [? | ?]; [cbn; tauto | done | contradiction]. }
  destruct (Z.eqb_spec (width * height) 0) as [Hz | Hz]; [|exact Hwf'].
  right. right. by split.
Qed.

(** Whatever the pixels, a state the loop reaches has 64 slots, a counter
    within 0..62 and a [last] of at least three items. *)
Lemma reaches_wf width height seen st :
  reaches width height seen st -> wf_locals st.
Proof.
  revert st. induction seen as [|p seen IH] using rev_ind; intros st Hreach.
  - apply reaches_nil in Hreach as ->. apply wf_init.
  - apply reaches_snoc in Hreach as (st0 & Hreach & Hstep).
    pose proof (step_wf_or_fail width height st0 p (opcodes width height seen)
                  (IH _ Hreach)) as H.
    by rewrite Hstep in H.
Qed.

Lemma loop_raises width height pixVals e :
  snd (for_each (loop_body width height) pixVals init_locals []) = Raise e ->
  exists p, In p pixVals /\ failure_cause width height p e.
Proof.
  induction pixVals as [|p seen IH] using rev_ind; intros Hraise.
  - discriminate Hraise.
  - rewrite opcodes_reaches_snoc in Hraise.
    destruct (snd (for_each (loop_body width height) seen init_locals []))
      as [st|e'] eqn:Hseen.
    + pose proof (step_wf_or_fail width height st p (opcodes width height seen)
                    (reaches_wf _ _ _ _ Hseen)) as H.
      destruct (loop_body width height st p (opcodes width height seen))
        as [fo' [st'|e']]; cbn [snd] in *; [discriminate|].
      injection Hraise as ->. exists p. split; [|exact H].
      apply in_or_app. right. by left.
    + cbn [snd] in Hraise. injection Hraise as ->.
      destruct (IH eq_refl) as (q & Hq & Hcause).
      exists q. split; [|exact Hcause]. apply in_or_app. by left.
Qed.

Lemma bands8_no_cause width height p e :
  bands8 p -> failure_cause width height p e ->
  e = ZeroDivisionError /\ width * height = 0.
Proof.
  intros (r & g & b & tl & Hp & Hr & Hg & Hb) [(_ & Hlen) | [(_ & c & Hc & Hout) | H]].
  - rewrite Hp in Hlen. cbn in Hlen. lia.
  - rewrite Hp in Hc. cbn in Hc. destruct Hc as [<- | [<- | [<- | []]]]; lia.
  - exact H.
Qed.

(** On pixels of at least three 8-bit bands the loop runs to its end, unless
    it has pixels to go through for an image size of zero. *)
Lemma loop_total_bands8 width height pixVals :
  Forall bands8 pixVals -> width * height <> 0 \/ pixVals = [] ->
  exists st, reaches width height pixVals st.
Proof.
  intros Hall Hsize. unfold reaches.
  destruct (snd (for_each (loop_body width height) pixVals init_locals []))
    as [st|e] eqn:Hloop; [by exists st|].
  exfalso. destruct (loop_raises _ _ _ _ Hloop) as (p & Hp & Hcause).
  rewrite Forall_forall in Hall.
  destruct (bands8_no_cause width height p e) as (_ & Hz);
    [apply Hall; by apply list_elem_of_In | exact Hcause |].
  destruct Hsize as [Hsize | ->]; [contradiction | destruct Hp].
Qed.

(** ** How a call of [encode] can end *)

(** With dimensions that fit, the right number of pixels and at least three
    8-bit bands in each, nothing raises. *)
Lemma encode_runs width height pixVals :
  0 <= width < 2 ^ 32 -> 0 <= height < 2 ^ 32 ->
  Z.of_nat (length pixVals) = width * height ->
  Forall bands8 pixVals ->
  encode width height pixVals =
  Wrote (header width height ++ opcodes width height pixVals ++ trailer) None.
Proof.
  intros Hw Hh Hlen Hall. rewrite encode_file by done.
  destruct (loop_total_bands8 width height pixVals Hall) as (st & Hreach).
  - destruct pixVals; [by right | left; cbn [length] in Hlen; lia].
  - unfold reaches in Hreach. by rewrite Hreach.
Qed.

(** X2: on a well-formed image (dimensions that fit 32 bits, as many pixels
    as width times height, each with at least three 8-bit bands) [encode]
    raises nothing, and the file is the 14 bytes of the header, the bytes of
    the loop and the 8 bytes of the end marker, in this order and nothing
    else. *)
Theorem encode_well_formed (width height : Z) (pixVals : list pyseq) :
  well_formed width height pixVals ->
  encode width height pixVals =
    Wrote (header width height ++ opcodes width height pixVals ++ trailer) None /\
  length (header width height) = 14%nat /\
  trailer = [0; 0; 0; 0; 0; 0; 0; 1].
Proof.
  intros (Hw & Hh & Hlen & Hall).
  split; [by apply encode_runs|]. by split.
Qed.

Lemma encode_well_formed_witness :
  encode 2 1 [PyTuple [9; 9; 9; 255]; PyTuple [9; 9; 9; 0]] =
    Wrote (header 2 1
           ++ opcodes 2 1 [PyTuple [9; 9; 9; 255]; PyTuple [9; 9; 9; 0]]
           ++ trailer) None /\
  length (header 2 1) = 14%nat /\
  trailer = [0; 0; 0; 0; 0; 0; 0; 1].
Proof.
  apply (encode_well_formed 2 1 [PyTuple [9; 9; 9; 255]; PyTuple [9; 9; 9; 0]]).
  split; [lia|]. split; [lia|]. split; [reflexivity|].
  repeat constructor.
  - exists 9, 9, 9, [255]. repeat split; lia.
  - exists 9, 9, 9, [0]. repeat split; lia.
Defined.


(** X4: a pixel with fewer than three bands (a 2-tuple of an "LA" image, say)
    ends the encoding with an [IndexError] at line 27: the file is left with
    the header and the bytes written for the pixels before it, without the
    end marker. *)
Theorem short_pixel_truncates (width height : Z) (good rest : list pyseq)
    (bad : pyseq) :
  0 <= width < 2 ^ 32 -> 0 <= height < 2 ^ 32 -> width * height <> 0 ->
  Forall bands8 good -> (length (items bad) < 3)%nat ->
  encode width height (good ++ bad :: rest) =
  Wrote (header width height ++ opcodes width height good) (Some IndexError).
Proof.
  intros Hw Hh Hsize Hgood Hbad. rewrite encode_file by done.
  destruct (loop_total_bands8 width height good Hgood (or_introl Hsize))
    as (st & Hreach).
  assert (for_each (loop_body width height) (good ++ bad :: rest) init_locals []
          = (opcodes width height good, Raise IndexError)) as Hloop.
  { rewrite for_each_app. unfold io_bind, opcodes.
    unfold reaches in Hreach.
    destruct (for_each (loop_body width height) good init_locals [])
      as [fo r]. cbn [snd fst] in *. subst r.
    cbn [for_each]. unfold io_bind at 1. unfold loop_body, io_bind, eval.
    by rewrite (index_hash_short bad Hbad). }
  rewrite Hloop. cbn [snd]. unfold opcodes at 1. by rewrite Hloop.
Qed.

Lemma short_pixel_truncates_witness :
  encode 3 1 ([px 7 7 7] ++ PyTuple [7; 255] :: [px 7 7 7]) =
  Wrote (header 3 1 ++ opcodes 3 1 [px 7 7 7]) (Some IndexError).
Proof.
  apply (short_pixel_truncates 3 1 [px 7 7 7] [px 7 7 7] (PyTuple [7; 255])).
  - lia.
  - lia.
  - lia.
  - repeat constructor. exists 7, 7, 7, []. repeat split; lia.
  - cbn. lia.
Defined.

(** ** What one iteration writes *)

(** The four ways through the loop body for a pixel of at least three 8-bit
    bands, with the bytes written in each. *)
Lemma step_bands8 width height st p fo r g b tl :
  wf_locals st ->
  items p = r :: g :: b :: tl ->
  0 <= r < 256 -> 0 <= g < 256 -> 0 <= b < 256 ->
  exists l0 l1 l2 ltl slot,
    items (last st) = l0 :: l1 :: l2 :: ltl /\
    index st !! Z.to_nat (hash_of r g b) = Some slot /\
    loop_body width height st p fo =
    if (l0 =? r) && ((l1 =? g) && ((l2 =? b) && (run_counter st <? 62))) then
      (fo, Ok {| index := index st; last := last st;
                 run_counter := run_counter st + 1; current := current st + 1 |})
    else if py_eq p slot then
      (fo ++ flushed (run_counter st) ++ [hash_of r g b],
       Ok {| index := index st; last := p;
             run_counter := 0; current := current st + 1 |})
    else if small_delta (r - l0) (g - l1) (b - l2) then
      (fo ++ flushed (run_counter st) ++ [diff_byte (r - l0) (g - l1) (b - l2)],
       Ok {| index := <[Z.to_nat (hash_of r g b) := p]> (index st); last := p;
             run_counter := 0; current := current st + 1 |})
    else
      (fo ++ flushed (run_counter st) ++ [254; r; g; b],
       if width * height =? 0 then Raise ZeroDivisionError else
       Ok {| index := <[Z.to_nat (hash_of r g b) := p]> (index st); last := p;
             run_counter := 0; current := current st + 1 |}).
Proof.
  intros Hwf Hp Hr Hg Hb.
  destruct (wf_slot st r g b Hwf) as (slot & Hslot).
  destruct Hwf as (Hlen & Hrc & l0 & l1 & l2 & ltl & Hlast).
  exists l0, l1, l2, ltl, slot. split; [exact Hlast|]. split; [exact Hslot|].
  rewrite (loop_body_eq width height st p fo r g b tl l0 l1 l2 ltl slot
             Hp Hlast Hrc Hslot).
  unfold literal_path. rewrite !to_bytes_1 by lia.
  by rewrite <- !app_assoc.
Qed.

Lemma flushed_length rc :
  length (flushed rc) = if 0 <? rc then 1%nat else 0%nat.
Proof. unfold flushed. by destruct (0 <? rc). Qed.

(** X6: the first byte of whatever the loop writes tells what it is: the
    byte of a run lies in [192, 253], an index byte (the hash of the pixel)
    in [0, 63], a diff byte in [64, 127], and a literal starts with 254.  No
    byte in [128, 191] (QOI_OP_LUMA) and no 255 (QOI_OP_RGBA) is written as
    a tag. *)
Theorem opcode_tags (width height : Z) (seen : list pyseq) (st : locals)
    (p : pyseq) (r g b : Z) (tl fo : list Z) :
  reaches width height seen st ->
  items p = r :: g :: b :: tl ->
  0 <= r < 256 -> 0 <= g < 256 -> 0 <= b < 256 ->
  fst (loop_body width height st p fo) = fo \/
  exists own,
    fst (loop_body width height st p fo)
      = fo ++ flushed (run_counter st) ++ own /\
    Forall (fun byte => 192 <= byte <= 253) (flushed (run_counter st)) /\
    ((exists tag, own = [tag] /\ tag = hash_of r g b /\ 0 <= tag < 64) \/
     (exists tag, own = [tag] /\ 64 <= tag < 128) \/
     own = [254; r; g; b]).
Proof.
  intros Hreach Hp Hr Hg Hb.
  pose proof (reaches_wf _ _ _ _ Hreach) as Hwf.
  destruct (step_bands8 width height st p fo r g b tl Hwf Hp Hr Hg Hb)
    as (l0 & l1 & l2 & ltl & slot & Hlast & Hslot & ->).
  destruct Hwf as (_ & Hrc & _).
  assert (Forall (fun byte => 192 <= byte <= 253) (flushed (run_counter st)))
    as Hrun.
  { unfold flushed. destruct (Z.ltb_spec 0 (run_counter st)); [|constructor].
    repeat constructor; rewrite run_byte_add; lia. }
  destruct ((l0 =? r) && ((l1 =? g) && ((l2 =? b) && (run_counter st <? 62))));
    [by left | right].
  destruct (py_eq p slot).
  { eexists. split; [reflexivity|]. split; [exact Hrun|]. left.
    eexists. split; [reflexivity|]. split; [reflexivity | apply hash_of_range]. }
  destruct (small_delta (r - l0) (g - l1) (b - l2)) eqn:Hd.
  - eexists. split; [reflexivity|]. split; [exact Hrun|]. right. left.
    eexists. split; [reflexivity|].
    apply small_delta_spec in Hd. destruct Hd as (H0 & H1 & H2).
    rewrite diff_byte_add; lia.
  - eexists. split; [reflexivity|]. split; [exact Hrun|]. by right; right.
Qed.

Lemma opcode_tags_witness :
  fst (loop_body 2 1 (stored init_locals 10 10 10) (px 11 8 11) [254; 10; 10; 10])
    = [254; 10; 10; 10] \/
  exists own,
    fst (loop_body 2 1 (stored init_locals 10 10 10) (px 11 8 11) [254; 10; 10; 10])
      = [254; 10; 10; 10] ++ flushed (run_counter (stored init_locals 10 10 10))
        ++ own /\
    Forall (fun byte => 192 <= byte <= 253)
      (flushed (run_counter (stored init_locals 10 10 10))) /\
    ((exists tag, own = [tag] /\ tag = hash_of 11 8 11 /\ 0 <= tag < 64) \/
     (exists tag, own = [tag] /\ 64 <= tag < 128) \/
     own = [254; 11; 8; 11]).
Proof.
  apply (opcode_tags 2 1 [px 10 10 10] (stored init_locals 10 10 10)
           (px 11 8 11) 11 8 11 [] [254; 10; 10; 10]).
  - reflexivity.
  - reflexivity.
  - lia.
  - lia.
  - lia.
Defined.

(** ** The size of the file *)

(** The bytes written so far, plus one for a pending run, are at most four
    per pixel. *)
Lemma opcodes_length width height seen st :
  Forall bands8 seen -> reaches width height seen st ->
  (length (opcodes width height seen) + length (flushed (run_counter st))
   <= 4 * length seen)%nat.
Proof.
  revert st. induction seen as [|p seen IH] using rev_ind; intros st Hall Hreach.
  - apply reaches_nil in Hreach as ->. cbn. lia.
  - apply Forall_app in Hall as [Hall Hp]. inversion Hp as [|? ? Hp' _]; subst.
    destruct Hp' as (r & g & b & tl & Hitems & Hr & Hg & Hb).
    pose proof Hreach as Hreach'.
    apply reaches_snoc in Hreach' as (st0 & Hreach0 & Hstep).
    specialize (IH st0 Hall Hreach0).
    unfold opcodes at 1. rewrite (opcodes_snoc _ _ _ st0 p Hreach0).
    destruct (step_bands8 width height st0 p (opcodes width height seen)
                r g b tl (reaches_wf _ _ _ _ Hreach0) Hitems Hr Hg Hb)
      as (l0 & l1 & l2 & ltl & slot & Hlast & Hslot & Heq).
    rewrite Heq in Hstep |- *. clear Heq.
    rewrite length_app. cbn [length].
    destruct ((l0 =? r) && ((l1 =? g) && ((l2 =? b) && (run_counter st0 <? 62)))).
    { cbn [fst snd] in *. injection Hstep as <-. cbn [run_counter].
      rewrite !flushed_length in *. destruct (0 <? run_counter st0 + 1); lia. }
    destruct (py_eq p slot).
    { cbn [fst snd] in *. injection Hstep as <-.
      rewrite !length_app. cbn. lia. }
    destruct (small_delta (r - l0) (g - l1) (b - l2)).
    { cbn [fst snd] in *. injection Hstep as <-.
      rewrite !length_app. cbn. lia. }
    cbn [fst snd] in *. destruct (width * height =? 0); [discriminate|].
    injection Hstep as <-. rewrite !length_app. cbn. lia.
Qed.

(** X5: for a well-formed image the file has between 22 bytes (header and end
    marker) and 22 bytes plus four for every pixel. *)
Theorem file_size_bound (width height : Z) (pixVals : list pyseq) :
  0 <= width < 2 ^ 32 -> 0 <= height < 2 ^ 32 ->
  Z.of_nat (length pixVals) = width * height ->
  Forall bands8 pixVals ->
  exists file,
    encode width height pixVals = Wrote file None /\
    (22 <= length file <= 22 + 4 * length pixVals)%nat.
Proof.
  intros Hw Hh Hlen Hall.
  rewrite (encode_runs width height pixVals Hw Hh Hlen Hall).
  eexists. split; [reflexivity|].
  destruct (loop_total_bands8 width height pixVals Hall) as (st & Hreach).
  { destruct pixVals; [by right | left; cbn [length] in Hlen; lia]. }
  pose proof (opcodes_length width height pixVals st Hall Hreach) as Hsize.
  rewrite !length_app. cbn [header trailer magic length be_bytes app]. lia.
Qed.

Lemma file_size_bound_witness :
  exists file,
    encode 2 1 [px 1 2 3; px 200 100 50] = Wrote file None /\
    (22 <= length file <= 22 + 4 * length [px 1 2 3; px 200 100 50])%nat.
Proof.
  apply (file_size_bound 2 1 [px 1 2 3; px 200 100 50]).
  - lia.
  - lia.
  - reflexivity.
  - repeat constructor.
    + exists 1, 2, 3, []. repeat split; lia.
    + exists 200, 100, 50, []. repeat split; lia.
Defined.

(** ** Pixels after pixels *)

(** X7: what has been written is never changed: the bytes for a longer pixel
    sequence begin with the bytes for its beginning, and the bytes that
    follow are those the loop writes from the state it had reached,
    whatever the pixels are. *)
Theorem output_append_only (width height : Z) (xs ys : list pyseq) :
  (exists rest,
     opcodes width height (xs ++ ys) = opcodes width height xs ++ rest) /\
  (forall st, reaches width height xs st ->
     opcodes width height (xs ++ ys)
     = opcodes width height xs
       ++ fst (for_each (loop_body width height) ys st [])) /\
  (forall e, snd (for_each (loop_body width height) xs init_locals []) = Raise e ->
     opcodes width height (xs ++ ys) = opcodes width height xs).
Proof.
  split; [apply opcodes_prefix|]. split.
  - intros st Hreach. unfold opcodes, reaches in *.
    rewrite for_each_app. unfold io_bind.
    destruct (for_each (loop_body width height) xs init_locals []) as [fo r].
    cbn [fst snd] in *. subst r. by rewrite appends_for_each.
  - intros e Hraise. unfold opcodes in *.
    rewrite for_each_app. unfold io_bind.
    destruct (for_each (loop_body width height) xs init_locals []) as [fo r].
    cbn [fst snd] in *. by subst r.
Qed.

(** ** The bytes determine the colours *)

Lemma read_flushed s rc :
  rd_lit s = None -> 0 <= rc <= 62 ->
  fold_left read_byte (flushed rc) s =
  {| rd_out := rd_out s ++ replicate (Z.to_nat rc) (rd_last s);
     rd_last := rd_last s; rd_table := rd_table s; rd_lit := None |}.
Proof.
  intros Hlit Hrc. unfold flushed. destruct (Z.ltb_spec 0 rc).
  - cbn [fold_left]. unfold read_byte. rewrite Hlit, run_byte_add by lia.
    destruct (Z.ltb_spec (191 + rc) 64); [lia|].
    destruct (Z.ltb_spec (191 + rc) 128); [lia|].
    destruct (Z.leb_spec 192 (191 + rc)); [|lia].
    destruct (Z.ltb_spec (191 + rc) 254); [|lia].
    cbn [andb]. do 3 f_equal. lia.
  - assert (rc = 0) as -> by lia. destruct s. cbn in *. subst.
    by rewrite app_nil_r.
Qed.

Lemma read_index s h :
  rd_lit s = None -> 0 <= h < 64 ->
  read_byte s h = rd_pixel s (default (0, 0, 0) (rd_table s !! Z.to_nat h)) false.
Proof.
  intros Hlit Hh. unfold read_byte. rewrite Hlit.
  by destruct (Z.ltb_spec h 64); [|lia].
Qed.

Lemma read_diff s dr dg db l0 l1 l2 :
  rd_lit s = None -> rd_last s = (l0, l1, l2) ->
  -2 <= dr <= 1 -> -2 <= dg <= 1 -> -2 <= db <= 1 ->
  read_byte s (diff_byte dr dg db) = rd_pixel s (l0 + dr, l1 + dg, l2 + db) true.
Proof.
  intros Hlit Hlast Hr Hg Hb. unfold read_byte. rewrite Hlit, Hlast.
  assert (dr = -2 \/ dr = -1 \/ dr = 0 \/ dr = 1) as [-> | [-> | [-> | ->]]] by lia;
  assert (dg = -2 \/ dg = -1 \/ dg = 0 \/ dg = 1) as [-> | [-> | [-> | ->]]] by lia;
  assert (db = -2 \/ db = -1 \/ db = 0 \/ db = 1) as [-> | [-> | [-> | ->]]] by lia;
  reflexivity.
Qed.

Lemma read_literal s r g b :
  rd_lit s = None ->
  fold_left read_byte [254; r; g; b] s = rd_pixel s (r, g, b) true.
Proof.
  intros Hlit. cbn [fold_left].
  assert (read_byte s 254 =
          {| rd_out := rd_out s; rd_last := rd_last s; rd_table := rd_table s;
             rd_lit := Some [] |}) as ->
    by (unfold read_byte; by rewrite Hlit).
  reflexivity.
Qed.

Lemma agrees_init : agrees [] init_locals rd_init.
Proof.
  split; [reflexivity|]. split; [reflexivity|]. split; [reflexivity|].
  split; [reflexivity|].
  intros k q Hq. cbn [index init_locals] in Hq.
  apply lookup_replicate in Hq as [-> Hk]. cbn [rd_table rd_init].
  by rewrite lookup_replicate_2.
Qed.

Lemma colour_items p r g b tl : items p = r :: g :: b :: tl -> colour p = (r, g, b).
Proof. intros Hp. unfold colour. by rewrite Hp. Qed.

(** After a pixel that is written (no run continuation): the reader has the
    pending run and the colour [c] of the pixel. *)
Lemma agrees_written seen st s p c (idx : list pyseq) (store : bool) cur :
  agrees seen st s -> 0 <= run_counter st <= 62 ->
  colour p = c ->
  (if store then idx = <[Z.to_nat (hash_colour c) := p]> (index st)
   else idx = index st) ->
  agrees (seen ++ [p])
    {| index := idx; last := p; run_counter := 0; current := cur |}
    (rd_pixel
       {| rd_out := rd_out s ++ replicate (Z.to_nat (run_counter st)) (rd_last s);
          rd_last := rd_last s; rd_table := rd_table s; rd_lit := None |}
       c store).
Proof.
  intros (Hlit & Hout & Hlast & Hlen & Htable) Hrc Hc Hidx.
  split; [reflexivity|]. cbn [rd_pixel rd_out rd_last rd_table run_counter last index].
  split; [|split; [exact Hc|]].
  { rewrite map_app, Hout. cbn. by rewrite app_nil_r, Hc. }
  destruct store; subst idx.
  - split; [by rewrite length_insert|].
    intros k q Hq.
    destruct (decide (k = Z.to_nat (hash_colour c))) as [-> | Hk].
    + destruct (lookup_lt_is_Some_2 (rd_table s) (Z.to_nat (hash_colour c)))
        as (c0 & Hc0).
      { rewrite Hlen. destruct c as [[r g] b]. cbn.
        pose proof (hash_of_range r g b). lia. }
      assert (Z.to_nat (hash_colour c) < length (index st))%nat as Hin.
      { apply lookup_lt_is_Some.
        destruct (index st !! Z.to_nat (hash_colour c)) eqn:E; [eauto|].
        rewrite list_insert_ge in Hq by (by apply lookup_ge_None).
        rewrite E in Hq. discriminate. }
      rewrite list_lookup_insert_eq in Hq by done. injection Hq as <-.
      rewrite list_lookup_insert_eq by (apply lookup_lt_is_Some; eauto).
      by rewrite Hc.
    + rewrite list_lookup_insert_ne in Hq by done.
      rewrite list_lookup_insert_ne by done. by apply Htable.
  - split; [exact Hlen | exact Htable].
Qed.

Lemma agrees_step width height seen st s p fo fo' st' :
  wf_locals st -> bands8 p -> agrees seen st s ->
  loop_body width height st p fo = (fo', Ok st') ->
  exists new, fo' = fo ++ new /\
              agrees (seen ++ [p]) st' (fold_left read_byte new s).
Proof.
  intros Hwf (r & g & b & tl & Hp & Hr & Hg & Hb) Hag Hstep.
  destruct (step_bands8 width height st p fo r g b tl Hwf Hp Hr Hg Hb)
    as (l0 & l1 & l2 & ltl & slot & Hlast & Hslot & Heq).
  rewrite Heq in Hstep. clear Heq.
  destruct Hwf as (Hlen & Hrc & _).
  pose proof (colour_items p r g b tl Hp) as Hcp.
  pose proof (colour_items (last st) l0 l1 l2 ltl Hlast) as Hcl.
  pose proof Hag as (Hlit & Hout & Hclast & Htlen & Htable).
  destruct ((l0 =? r) && ((l1 =? g) && ((l2 =? b) && (run_counter st <? 62))))
    eqn:Hrun.
  { (* the run goes on: nothing to read *)
    rewrite !andb_true_iff, !Z.eqb_eq, Z.ltb_lt in Hrun.
    destruct Hrun as (-> & -> & -> & Hlt).
    injection Hstep as <- <-. exists []. split; [by rewrite app_nil_r|].
    cbn [fold_left]. split; [exact Hlit|].
    cbn [run_counter last index]. split; [|by repeat split].
    rewrite map_app, Hout. cbn [map].
    replace (Z.to_nat (run_counter st + 1)) with (S (Z.to_nat (run_counter st)))
      by lia.
    rewrite replicate_S_end, app_assoc. by rewrite Hcp, <- Hclast, Hcl. }
  destruct (py_eq p slot) eqn:Hhit.
  { (* index byte *)
    injection Hstep as <- <-. eexists. split; [reflexivity|].
    rewrite fold_left_app, (read_flushed s _ Hlit Hrc). cbn [fold_left].
    rewrite read_index by (reflexivity || apply hash_of_range).
    cbn [rd_table]. apply py_eq_true in Hhit. subst slot.
    rewrite (Htable _ _ Hslot). cbn [default].
    by apply (agrees_written seen st s p (colour p) (index st) false). }
  destruct (small_delta (r - l0) (g - l1) (b - l2)) eqn:Hd.
  { (* diff byte *)
    injection Hstep as <- <-. eexists. split; [reflexivity|].
    rewrite fold_left_app, (read_flushed s _ Hlit Hrc). cbn [fold_left].
    apply small_delta_spec in Hd. destruct Hd as (H0 & H1 & H2).
    rewrite (read_diff _ _ _ _ l0 l1 l2) by
      (reflexivity || (cbn [rd_last]; congruence) || done).
    replace (l0 + (r - l0), l1 + (g - l1), l2 + (b - l2)) with (r, g, b)
      by (f_equal; [f_equal|]; lia).
    apply (agrees_written seen st s p (r, g, b) _ true); done. }
  (* literal *)
  destruct (width * height =? 0); [discriminate|].
  injection Hstep as <- <-. eexists. split; [reflexivity|].
  rewrite fold_left_app, (read_flushed s _ Hlit Hrc).
  rewrite read_literal by reflexivity.
  apply (agrees_written seen st s p (r, g, b) _ true); done.
Qed.

Lemma read_back_agrees width height seen st :
  Forall bands8 seen -> reaches width height seen st ->
  agrees seen st (read_back (opcodes width height seen)).
Proof.
  revert st. induction seen as [|p seen IH] using rev_ind; intros st Hall Hreach.
  - apply reaches_nil in Hreach as ->. apply agrees_init.
  - apply Forall_app in Hall as [Hall Hp]. inversion Hp as [|? ? Hp' _]; subst.
    pose proof Hreach as Hreach'.
    apply reaches_snoc in Hreach' as (st0 & Hreach0 & Hstep).
    unfold opcodes at 1. rewrite (opcodes_snoc _ _ _ st0 p Hreach0).
    destruct (loop_body width height st0 p (opcodes width height seen))
      as [fo' r] eqn:Hbody. cbn [snd fst] in *. subst r.
    destruct (agrees_step width height seen st0 _ p _ _ _
                (reaches_wf _ _ _ _ Hreach0) Hp' (IH st0 Hall Hreach0) Hbody)
      as (new & -> & Hag).
    unfold read_back. rewrite fold_left_app. exact Hag.
Qed.

(** Reading back the bytes of the loop gives the colours of the pixels. *)
Lemma restore_opcodes width height seen st :
  Forall bands8 seen -> reaches width height seen st ->
  restore (length seen) (opcodes width height seen) = map colour seen.
Proof.
  intros Hall Hreach.
  destruct (read_back_agrees width height seen st Hall Hreach)
    as (_ & Hout & _).
  pose proof (reaches_wf _ _ _ _ Hreach) as (_ & Hrc & _).
  unfold restore. cbv zeta. rewrite Hout. f_equal. f_equal.
  apply (f_equal length) in Hout.
  rewrite length_map, length_app, length_replicate in Hout. lia.
Qed.

Lemma header_inj w1 h1 w2 h2 :
  0 <= w1 < 2 ^ 32 -> 0 <= h1 < 2 ^ 32 ->
  0 <= w2 < 2 ^ 32 -> 0 <= h2 < 2 ^ 32 ->
  header w1 h1 = header w2 h2 -> w1 = w2 /\ h1 = h2.
Proof.
  intros Hw1 Hh1 Hw2 Hh2 Heq. unfold header in Heq.
  rewrite !be_bytes_4 in Heq. cbn [app magic] in Heq.
  injection Heq as E3 E2 E1 E0 F3 F2 F1 F0.
  rewrite (be_bytes_4_value w1 Hw1), (be_bytes_4_value w2 Hw2).
  rewrite (be_bytes_4_value h1 Hh1), (be_bytes_4_value h2 Hh2).
  by rewrite E3, E2, E1, E0, F3, F2, F1, F0.
Qed.

Lemma header_length width height : length (header width height) = 14%nat.
Proof. reflexivity. Qed.

Lemma colour_inj_rgb (xs ys : list pyseq) :
  Forall rgb_pixel xs -> Forall rgb_pixel ys ->
  map colour xs = map colour ys -> xs = ys.
Proof.
  intros Hxs. revert ys. induction Hxs as [|x xs Hx _ IH]; intros ys Hys Heq.
  - by destruct ys.
  - destruct Hys as [|y ys Hy Hys]; [discriminate|].
    cbn [map] in Heq. injection Heq as Hc Hrest.
    destruct Hx as (r & g & b & -> & _), Hy as (r' & g' & b' & -> & _).
    cbn in Hc. injection Hc as -> -> ->. f_equal. by apply IH.
Qed.

(** X1: the encoding loses nothing.  Two well-formed images with the same
    file have the same width and height and, pixel by pixel, the same red,
    green and blue; when their pixels are RGB triples they are the same
    image.  (The file says so although the run that is open at the end is
    never written: the header gives the number of pixels.) *)
Theorem encode_lossless (w1 h1 w2 h2 : Z) (pix1 pix2 : list pyseq) :
  well_formed w1 h1 pix1 -> well_formed w2 h2 pix2 ->
  encode w1 h1 pix1 = encode w2 h2 pix2 ->
  w1 = w2 /\ h1 = h2 /\
  map colour pix1 = map colour pix2 /\
  (Forall rgb_pixel pix1 -> Forall rgb_pixel pix2 -> pix1 = pix2).
Proof.
  intros (Hw1 & Hh1 & Hn1 & Hall1) (Hw2 & Hh2 & Hn2 & Hall2) Hfile.
  rewrite (encode_runs w1 h1 pix1), (encode_runs w2 h2 pix2) in Hfile by done.
  assert (header w1 h1 ++ opcodes w1 h1 pix1 ++ trailer
          = header w2 h2 ++ opcodes w2 h2 pix2 ++ trailer) as Hbytes
    by congruence.
  clear Hfile.
  apply app_inj_1 in Hbytes as [Hhead Hbody];
    [|by rewrite !header_length].
  destruct (header_inj w1 h1 w2 h2 Hw1 Hh1 Hw2 Hh2 Hhead) as [<- <-].
  apply app_inv_tail in Hbody.
  assert (length pix1 = length pix2) as Hlen by lia.
  assert (map colour pix1 = map colour pix2) as Hcolours.
  { destruct (loop_total_bands8 w1 h1 pix1 Hall1) as (st1 & Hreach1).
    { destruct pix1; [by right | left; cbn [length] in Hn1; lia]. }
    destruct (loop_total_bands8 w1 h1 pix2 Hall2) as (st2 & Hreach2).
    { destruct pix2; [by right | left; cbn [length] in Hn2; lia]. }
    rewrite <- (restore_opcodes w1 h1 pix1 st1 Hall1 Hreach1).
    rewrite <- (restore_opcodes w1 h1 pix2 st2 Hall2 Hreach2).
    by rewrite Hlen, Hbody. }
  split; [reflexivity|]. split; [reflexivity|]. split; [exact Hcolours|].
  intros Hrgb1 Hrgb2. by apply colour_inj_rgb.
Qed.

Lemma encode_lossless_witness :
  2 = 2 /\ 1 = 1 /\
  map colour [px 1 2 3; px 1 2 3] = map colour [px 1 2 3; px 1 2 3] /\
  (Forall rgb_pixel [px 1 2 3; px 1 2 3] ->
   Forall rgb_pixel [px 1 2 3; px 1 2 3] ->
   [px 1 2 3; px 1 2 3] = [px 1 2 3; px 1 2 3]).
Proof.
  assert (well_formed 2 1 [px 1 2 3; px 1 2 3]) as Hwf.
  { split; [lia|]. split; [lia|]. split; [reflexivity|].
    repeat constructor; exists 1, 2, 3, []; repeat split; lia. }
  apply (encode_lossless 2 1 2 1 [px 1 2 3; px 1 2 3] [px 1 2 3; px 1 2 3]
           Hwf Hwf eq_refl).
Defined.

(** ** The local variables, whatever the pixels *)

Lemma step_current width height st p fo st' :
  wf_locals st ->
  snd (loop_body width height st p fo) = Ok st' ->
  current st' = current st + 1.
Proof.
  intros Hwf Hstep.
  destruct (items p) as [|r [|g [|b tl]]] eqn:Hp.
  1-3: unfold loop_body, io_bind, eval in Hstep;
       rewrite index_hash_short in Hstep by (rewrite Hp; cbn; lia);
       discriminate Hstep.
  destruct (wf_slot st r g b Hwf) as (slot & Hslot).
  destruct Hwf as (Hlen & Hrc & l0 & l1 & l2 & ltl & Hlast).
  rewrite (loop_body_eq width height st p fo r g b tl l0 l1 l2 ltl slot
             Hp Hlast Hrc Hslot) in Hstep.
  destruct ((l0 =? r) && ((l1 =? g) && ((l2 =? b) && (run_counter st <? 62))));
    [by injection Hstep as <-|].
  destruct (py_eq p slot); [by injection Hstep as <-|].
  destruct (small_delta (r - l0) (g - l1) (b - l2)); [by injection Hstep as <-|].
  unfold literal_path in Hstep.
  destruct (to_bytes r 1); [|discriminate].
  destruct (to_bytes g 1); [|discriminate].
  destruct (to_bytes b 1); [|discriminate].
  cbn [snd] in Hstep. destruct (width * height =? 0); [discriminate|].
  by injection Hstep as <-.
Qed.

Lemma reaches_current width height seen st :
  reaches width height seen st -> current st = Z.of_nat (length seen).
Proof.
  revert st. induction seen as [|p seen IH] using rev_ind; intros st Hreach.
  - by apply reaches_nil in Hreach as ->.
  - apply reaches_snoc in Hreach as (st0 & Hreach0 & Hstep).
    rewrite (step_current _ _ _ _ _ _ (reaches_wf _ _ _ _ Hreach0) Hstep).
    rewrite (IH st0 Hreach0), length_app. cbn. lia.
Qed.

(** X8: whatever the pixels are (any number of bands, any integers), as long
    as the loop runs the colour index keeps its 64 slots, [run_counter]
    stays within 0..62, [last] has the three channels that line 84 reads,
    and [current] counts the pixels gone through. *)
Theorem locals_invariant (width height : Z) (seen : list pyseq) (st : locals) :
  reaches width height seen st ->
  length (index st) = 64%nat /\
  0 <= run_counter st <= 62 /\
  (3 <= length (items (last st)))%nat /\
  current st = Z.of_nat (length seen).
Proof.
  intros Hreach.
  destruct (reaches_wf _ _ _ _ Hreach) as (Hlen & Hrc & l0 & l1 & l2 & ltl & Hlast).
  split; [exact Hlen|]. split; [exact Hrc|].
  split; [rewrite Hlast; cbn; lia|].
  exact (reaches_current width height seen st Hreach).
Qed.

Lemma locals_invariant_witness :
  length (index (stored init_locals 10 10 10)) = 64%nat /\
  0 <= run_counter (stored init_locals 10 10 10) <= 62 /\
  (3 <= length (items (last (stored init_locals 10 10 10))))%nat /\
  current (stored init_locals 10 10 10) = Z.of_nat (length [px 10 10 10]).
Proof.
  apply (locals_invariant 2 1 [px 10 10 10] (stored init_locals 10 10 10)).
  reflexivity.
Defined.

(** ** A band that is the same in every pixel *)

Lemma py_eq_with_alpha a p q :
  py_eq (with_alpha a p) (with_alpha a q) = py_eq p q.
Proof.
  destruct p as [x | x], q as [y | y]; cbn; try reflexivity.
  apply bool_decide_ext. split; [apply app_inv_tail | congruence].
Qed.

Lemma items_with_alpha a p r g b tl :
  items p = r :: g :: b :: tl ->
  exists tl', items (with_alpha a p) = r :: g :: b :: tl'.
Proof.
  destruct p as [x | x]; cbn; intros ->; cbn; eauto.
Qed.

Lemma literal_path_lift width height r g b a st' fo :
  literal_path width height r g b (lift a st') fo =
  (fst (literal_path width height r g b st' fo),
   rmap (lift a) (snd (literal_path width height r g b st' fo))).
Proof.
  unfold literal_path.
  destruct (to_bytes r 1); [|reflexivity].
  destruct (to_bytes g 1); [|reflexivity].
  destruct (to_bytes b 1); [|reflexivity].
  cbn [fst snd]. by destruct (width * height =? 0).
Qed.

Lemma loop_body_lift width height a st p fo :
  wf_locals st -> (3 <= length (items p))%nat ->
  loop_body width height (lift a st) (with_alpha a p) fo =
  (fst (loop_body width height st p fo),
   rmap (lift a) (snd (loop_body width height st p fo))).
Proof.
  intros Hwf Hlen3.
  destruct (items p) as [|r [|g [|b tl]]] eqn:Hp; cbn in Hlen3; try lia.
  destruct (wf_slot st r g b Hwf) as (slot & Hslot).
  destruct Hwf as (Hlen & Hrc & l0 & l1 & l2 & ltl & Hlast).
  destruct (items_with_alpha a p r g b tl Hp) as (tl' & Hp').
  destruct (items_with_alpha a (last st) l0 l1 l2 ltl Hlast) as (ltl' & Hlast').
  assert (index (lift a st) !! Z.to_nat (hash_of r g b)
          = Some (with_alpha a slot)) as Hslot'
    by (cbn [lift index]; by rewrite list_lookup_fmap, Hslot).
  rewrite (loop_body_eq width height st p fo r g b tl l0 l1 l2 ltl slot
             Hp Hlast Hrc Hslot).
  rewrite (loop_body_eq width height (lift a st) (with_alpha a p) fo
             r g b tl' l0 l1 l2 ltl' (with_alpha a slot) Hp' Hlast' Hrc Hslot').
  rewrite py_eq_with_alpha. cbn [lift run_counter current index last].
  destruct ((l0 =? r) && ((l1 =? g) && ((l2 =? b) && (run_counter st <? 62))));
    [reflexivity|].
  destruct (py_eq p slot); [reflexivity|].
  destruct (small_delta (r - l0) (g - l1) (b - l2)).
  - cbn [fst snd rmap]. unfold lift. cbn [index last run_counter current].
    by rewrite list_fmap_insert.
  - rewrite <- literal_path_lift. unfold lift.
    cbn [index last run_counter current]. by rewrite list_fmap_insert.
Qed.

Lemma for_each_lift width height a pixVals st fo :
  wf_locals st -> Forall (fun p => (3 <= length (items p))%nat) pixVals ->
  for_each (loop_body width height) (map (with_alpha a) pixVals) (lift a st) fo =
  (fst (for_each (loop_body width height) pixVals st fo),
   rmap (lift a) (snd (for_each (loop_body width height) pixVals st fo))).
Proof.
  intros Hwf Hall. revert st fo Hwf.
  induction Hall as [|p rest Hp _ IH]; intros st fo Hwf.
  - reflexivity.
  - cbn [map for_each]. unfold io_bind.
    rewrite (loop_body_lift width height a st p fo Hwf Hp).
    pose proof (step_wf_or_fail width height st p fo Hwf) as Hstep.
    destruct (loop_body width height st p fo) as [fo' [st'|e]];
      cbn [fst snd rmap] in *; [by apply IH | reflexivity].
Qed.

(** X9: a band that has the same value in every pixel does not show in the
    file.  If every pixel has at least three bands and one more band of the
    value [a] is added to each (an opaque alpha, for an RGB image saved as
    RGBA), [encode] ends the same way and writes the same bytes. *)
Theorem constant_band_ignored (width height a : Z) (pixVals : list pyseq) :
  Forall (fun p => (3 <= length (items p))%nat) pixVals ->
  encode width height (map (with_alpha a) pixVals) = encode width height pixVals.
Proof.
  intros Hall. unfold encode.
  destruct (rbind (to_bytes width 4) _) as [[[[bw bh] ch] cs] | e];
    [|reflexivity].
  unfold write_file, io_bind, fo_write.
  change init_locals with (lift a init_locals) at 1.
  rewrite (for_each_lift width height a pixVals init_locals _ wf_init Hall).
  by destruct (for_each (loop_body width height) pixVals init_locals _)
    as [fo [st|e]].
Qed.

Lemma constant_band_ignored_witness :
  encode 2 1 (map (with_alpha 255) [px 1 2 3; px 1 2 4]) =
  encode 2 1 [px 1 2 3; px 1 2 4].
Proof.
  apply (constant_band_ignored 2 1 255 [px 1 2 3; px 1 2 4]).
  repeat constructor.
Defined.
